(** * Crow's CookieParser middleware: a shallow embedding and its properties

    Source: [include/crow/middlewares/cookie_parser.h].

    The development has three layers.
    - [StdString]: the part of [std::string] and [boost::trim] the parser
      relies on, with [size_t] arithmetic modulo [2^64].
    - the request-header parser ([before_handle]'s loop), written in an error
      monad that records C++ exceptions and undefined reads;
    - the [Cookie] value object, the per-request [context] and the two hooks;
      [format()] and [after_handle] thread the state of the function-static
      date facet of [format()], which the first call that prints a date
      leaves deleted.

    What is not part of the header file (Boost's date rendering, the header
    name comparison of the request's multimap) is taken as a parameter. *)

From Stdlib Require Import ZArith Lia String Ascii List Permutation DecimalString.
From stdpp Require Import gmap strings list.

Local Open Scope Z_scope.

(** ** Outcomes of C++ code that may throw or read out of bounds *)

Inductive result (A : Type) : Type :=
  | Ret (a : A)      (* normal completion *)
  | OutOfRange       (* std::out_of_range thrown by substr *)
  | Undefined        (* operator[] beyond size(), or a deleted object used *)
  | OutOfFuel.       (* the iteration bound of the model was reached *)

Arguments Ret {A} a.
Arguments OutOfRange {A}.
Arguments Undefined {A}.
Arguments OutOfFuel {A}.

#[global] Instance result_ret : MRet result := fun A a => Ret a.
#[global] Instance result_bind : MBind result := fun A B f m =>
  match m with
  | Ret a => f a
  | OutOfRange => OutOfRange
  | Undefined => Undefined
  | OutOfFuel => OutOfFuel
  end.

(** ** [size_t] *)

Definition size_t_modulus : Z := 2 ^ 64.

(** [std::string::npos], the largest [size_t]. *)
Definition npos : Z := size_t_modulus - 1.

(** Reduction of an arithmetic result to [size_t]. *)
Definition wrap (z : Z) : Z := z mod size_t_modulus.

(** ** [std::string] and [boost::trim]

    A [std::string] holds at most [max_size()] characters, which is less
    than [npos]: statements on positions assume [size s < npos]. *)

Module StdString.

Definition DQUOTE : ascii := "034"%char.
Definition NUL : ascii := "000"%char.

Definition size (s : string) : Z := Z.of_nat (String.length s).

Definition empty (s : string) : bool :=
  match s with EmptyString => true | String _ _ => false end.

Fixpoint drop (n : nat) (s : string) : string :=
  match n, s with
  | O, _ => s
  | S n', String _ r => drop n' r
  | S _, EmptyString => EmptyString
  end.

Fixpoint take (n : nat) (s : string) : string :=
  match n, s with
  | S n', String a r => String a (take n' r)
  | _, _ => EmptyString
  end.

Fixpoint nth_char (n : nat) (s : string) : option ascii :=
  match s, n with
  | EmptyString, _ => None
  | String a _, O => Some a
  | String _ r, S n' => nth_char n' r
  end.

(** [s[i]]: an element for [i < size()], the terminating null character
    for [i == size()] (C++11), undefined beyond. *)
Definition at_ (s : string) (i : Z) : result ascii :=
  if i <? size s then
    match nth_char (Z.to_nat i) s with
    | Some c => Ret c
    | None => Undefined
    end
  else if i =? size s then Ret NUL
  else Undefined.

(** [s.substr(pos, n)]: throws when [pos > size()], otherwise the
    characters [pos, pos + min(n, size() - pos))]. *)
Definition substr (s : string) (pos n : Z) : result string :=
  if size s <? pos then OutOfRange
  else Ret (take (Z.to_nat (Z.min n (size s - pos))) (drop (Z.to_nat pos) s)).

(** Offset of the first [c] in [s]. *)
Fixpoint index_of (c : ascii) (s : string) : option nat :=
  match s with
  | EmptyString => None
  | String a r => if Ascii.eqb a c then Some O else S <$> index_of c r
  end.

(** [s.find(c, pos)]. *)
Definition find (s : string) (c : ascii) (pos : Z) : Z :=
  match index_of c (drop (Z.to_nat pos) s) with
  | Some i => pos + Z.of_nat i
  | None => npos
  end.

Definition contains (c : ascii) (s : string) : bool :=
  match index_of c s with Some _ => true | None => false end.

(** [std::isspace] in the classic locale: space, and HT, LF, VT, FF, CR. *)
Definition is_space (c : ascii) : bool :=
  let n := nat_of_ascii c in
  (Nat.eqb n 32 || (Nat.leb 9 n && Nat.leb n 13))%bool.

Fixpoint trim_left (s : string) : string :=
  match s with
  | String a r => if is_space a then trim_left r else s
  | EmptyString => EmptyString
  end.

Fixpoint trim_right (s : string) : string :=
  match s with
  | String a r =>
      let r' := trim_right r in
      if (empty r' && is_space a)%bool then EmptyString else String a r'
  | EmptyString => EmptyString
  end.

(** [boost::trim(s)]: [trim_right] then [trim_left]. *)
Definition trim (s : string) : string := trim_left (trim_right s).

End StdString.

Import StdString.

(** ** The request-header parser (the loop of [before_handle]) *)

(** [unordered_map::emplace]: inserts only when the key is absent. *)
Definition emplace (name value : string) (jar : gmap string string)
  : gmap string string :=
  match jar !! name with
  | Some _ => jar
  | None => <[name := value]> jar
  end.

(** [while (pos < cookies.size() && cookies[pos] == ' ') pos++;]
    bounded by [fuel] increments. *)
Fixpoint skip_blanks (fuel : nat) (cookies : string) (pos : Z) : result Z :=
  if pos <? size cookies then
    c ← at_ cookies pos;
    if Ascii.eqb c " " then
      match fuel with
      | O => OutOfFuel
      | S fuel' => skip_blanks fuel' cookies (wrap (pos + 1))
      end
    else mret pos
  else mret pos.

(** The condition of line 216: [value[0]] is the double quote and
    [value[value.size() - 1]] is the double quote; the second read happens
    only when the first comparison holds. *)
Definition is_quoted (value : string) : result bool :=
  first ← at_ value 0;
  if Ascii.eqb first DQUOTE then
    last ← at_ value (wrap (size value - 1));
    mret (Ascii.eqb last DQUOTE)
  else mret false.

(** Lines 216-219: the quote check and [value.substr(1, value.size() - 2)]. *)
Definition unquote (value : string) : result string :=
  quoted ← is_quoted value;
  if quoted : bool then substr value 1 (wrap (size value - 2)) else mret value.

Inductive step : Type :=
  | Break (jar : gmap string string)
  | Continue (pos : Z) (jar : gmap string string).

(** The jar when the iteration is over. *)
Definition jar_of (st : step) : gmap string string :=
  match st with Break jar => jar | Continue _ jar => jar end.

(** One iteration of the [while (pos < cookies.size())] loop. *)
Definition parse_pair (cookies : string) (pos : Z) (jar : gmap string string)
  : result step :=
  let pos_equal := find cookies "=" pos in
  if pos_equal =? npos then mret (Break jar) else
  name ← substr cookies pos (wrap (pos_equal - pos));
  let name := trim name in
  let pos := wrap (pos_equal + 1) in
  pos ← skip_blanks (String.length cookies) cookies pos;
  if pos =? size cookies then mret (Break jar) else
  let pos_semicolon := find cookies ";" pos in
  value ← substr cookies pos (wrap (pos_semicolon - pos));
  let value := trim value in
  value ← unquote value;
  let jar := emplace name value jar in
  let pos := pos_semicolon in
  if pos =? npos then mret (Break jar) else
  let pos := wrap (pos + 1) in
  pos ← skip_blanks (String.length cookies) cookies pos;
  mret (Continue pos jar).

(** The loop, bounded by [fuel] iterations. *)
Fixpoint cookie_loop (fuel : nat) (cookies : string) (pos : Z)
    (jar : gmap string string) : result (gmap string string) :=
  if pos <? size cookies then
    match fuel with
    | O => OutOfFuel
    | S fuel' =>
        st ← parse_pair cookies pos jar;
        match st with
        | Break jar' => mret jar'
        | Continue pos' jar' => cookie_loop fuel' cookies pos' jar'
        end
    end
  else mret jar.

(** Lines 197-229: the parse of one header value, from [pos = 0]; one
    iteration per character is enough ([parse_cookies_total]). *)
Definition parse_cookies (cookies : string) (jar : gmap string string)
  : result (gmap string string) :=
  cookie_loop (String.length cookies) cookies 0 jar.

(** ** [boost::posix_time::time_duration]

    A duration is a signed count of ticks; the accessors are those of
    Boost.Date_Time ([date_time/time_duration.hpp]), with C++ integer
    division and remainder (rounding toward zero). *)

Module PosixTime.

Record time_duration : Type := { ticks : Z }.

(** Microsecond resolution, the default configuration. *)
Definition ticks_per_second : Z := 1000000.

(** [dt.seconds()]: the normalised seconds field, [(ticks / tps) % 60]. *)
Definition seconds (dt : time_duration) : Z :=
  Z.rem (Z.quot (ticks dt) ticks_per_second) 60.

(** [dt.total_seconds()]: the whole duration in seconds, [ticks / tps]. *)
Definition total_seconds (dt : time_duration) : Z :=
  Z.quot (ticks dt) ticks_per_second.

(** [time_duration(h, m, s)]: a negative field makes the whole duration
    negative. *)
Definition of_hms (h m s : Z) : time_duration :=
  if ((h <? 0) || (m <? 0) || (s <? 0))%bool
  then {| ticks := - ((Z.abs h * 3600 + Z.abs m * 60 + Z.abs s)
                      * ticks_per_second) |}
  else {| ticks := (h * 3600 + m * 60 + s) * ticks_per_second |}.

End PosixTime.

(** ** The middleware *)

Module SameSitePolicy.
Inductive t : Type := Strict | Lax | None.
End SameSitePolicy.

(** [operator<<] of a [long long] on the stream: signed decimal, without
    digit grouping (the classic locale, which is the global locale of a
    program that does not replace it). *)
Definition put_integer (n : Z) : string := NilZero.string_of_int (Z.to_int n).

Definition DIVIDER : string := "; ".

(** The date facet of [format()]. Lines 57-58 create one function-static
    [time_facet], with a reference count of zero, and line 66 hands that
    same pointer to a new [std::locale] in every call that writes an
    Expires attribute. The locale owns the facet: when the stream of the
    call is destroyed on return, the facet is deleted, and the static
    pointer dangles for the rest of the process. *)
Inductive facet_state : Type :=
  | FacetFresh    (* never handed to a locale *)
  | FacetFreed.   (* deleted with the stream of an earlier call *)

Section Middleware.

(** [boost::posix_time::ptime] and its rendering by the stream once the
    HTTP-date facet of [format()] is imbued. *)
Variable ptime : Type.
Variable put_ptime : ptime -> string.

(** The key equivalence of the header multimap of [request]. *)
Variable header_key_eq : string -> string -> bool.

Record Cookie : Type := {
  key_ : string;
  value_ : string;
  max_age_ : option Z;
  domain_ : string;
  path_ : string;
  secure_ : bool;
  httponly_ : bool;
  expires_at_ : option ptime;
  same_site_ : option SameSitePolicy.t
}.

(** [Cookie(key, value)]: the defaulted members, then key and value. *)
Definition new_cookie (key value : string) : Cookie :=
  {| key_ := key; value_ := value; max_age_ := None;
     domain_ := EmptyString; path_ := EmptyString;
     secure_ := false; httponly_ := false;
     expires_at_ := None; same_site_ := None |}.

(** [format()]: [ss] is the content of the string stream, [facet] the state
    of the static facet, before the call and after it. Building the locale
    from a deleted facet is undefined; a facet handed to the locale of [ss]
    is deleted with [ss] when the call returns. *)
Definition format (facet : facet_state) (c : Cookie)
  : result (string * facet_state) :=
  let ss := EmptyString in
  let ss := (ss +:+ key_ c) +:+ "=" in
  let ss := ss +:+ (if empty (value_ c)
                    then String DQUOTE (String DQUOTE EmptyString)
                    else value_ c) in
  '(ss, facet) ← match expires_at_ c with
                 | Some t =>
                     let ss := (ss +:+ DIVIDER) +:+ "Expires=" in
                     match facet with
                     | FacetFresh => mret (ss +:+ put_ptime t, FacetFreed)
                     | FacetFreed => Undefined
                     end
                 | None => mret (ss, facet)
                 end;
  let ss := match max_age_ c with
            | Some age => ((ss +:+ DIVIDER) +:+ "Max-Age=") +:+ put_integer age
            | None => ss
            end in
  let ss := if negb (empty (domain_ c))
            then ((ss +:+ DIVIDER) +:+ "Domain=") +:+ domain_ c else ss in
  let ss := if negb (empty (path_ c))
            then ((ss +:+ DIVIDER) +:+ "Path=") +:+ path_ c else ss in
  let ss := if secure_ c then (ss +:+ DIVIDER) +:+ "Secure" else ss in
  let ss := if httponly_ c then (ss +:+ DIVIDER) +:+ "HttpOnly" else ss in
  let ss := match same_site_ c with
            | Some ssp =>
                let ss := (ss +:+ DIVIDER) +:+ "SameSite=" in
                match ssp with
                | SameSitePolicy.Strict => ss +:+ "Strict"
                | SameSitePolicy.Lax => ss +:+ "Lax"
                | SameSitePolicy.None => ss +:+ "None"
                end
            | None => ss
            end in
  mret (ss, facet).

Definition expires (time : ptime) (c : Cookie) : Cookie :=
  {| key_ := key_ c; value_ := value_ c; max_age_ := max_age_ c;
     domain_ := domain_ c; path_ := path_ c; secure_ := secure_ c;
     httponly_ := httponly_ c; expires_at_ := Some time;
     same_site_ := same_site_ c |}.

(** [max_age(long long)]. *)
Definition max_age (age : Z) (c : Cookie) : Cookie :=
  {| key_ := key_ c; value_ := value_ c; max_age_ := Some age;
     domain_ := domain_ c; path_ := path_ c; secure_ := secure_ c;
     httponly_ := httponly_ c; expires_at_ := expires_at_ c;
     same_site_ := same_site_ c |}.

(** [max_age(const time_duration&)]: stores [dt.seconds()]. *)
Definition max_age_duration (dt : PosixTime.time_duration) (c : Cookie)
  : Cookie :=
  {| key_ := key_ c; value_ := value_ c;
     max_age_ := Some (PosixTime.seconds dt);
     domain_ := domain_ c; path_ := path_ c; secure_ := secure_ c;
     httponly_ := httponly_ c; expires_at_ := expires_at_ c;
     same_site_ := same_site_ c |}.

Definition domain (name : string) (c : Cookie) : Cookie :=
  {| key_ := key_ c; value_ := value_ c; max_age_ := max_age_ c;
     domain_ := name; path_ := path_ c; secure_ := secure_ c;
     httponly_ := httponly_ c; expires_at_ := expires_at_ c;
     same_site_ := same_site_ c |}.

Definition path (p : string) (c : Cookie) : Cookie :=
  {| key_ := key_ c; value_ := value_ c; max_age_ := max_age_ c;
     domain_ := domain_ c; path_ := p; secure_ := secure_ c;
     httponly_ := httponly_ c; expires_at_ := expires_at_ c;
     same_site_ := same_site_ c |}.

Definition secure (c : Cookie) : Cookie :=
  {| key_ := key_ c; value_ := value_ c; max_age_ := max_age_ c;
     domain_ := domain_ c; path_ := path_ c; secure_ := true;
     httponly_ := httponly_ c; expires_at_ := expires_at_ c;
     same_site_ := same_site_ c |}.

Definition httponly (c : Cookie) : Cookie :=
  {| key_ := key_ c; value_ := value_ c; max_age_ := max_age_ c;
     domain_ := domain_ c; path_ := path_ c; secure_ := secure_ c;
     httponly_ := true; expires_at_ := expires_at_ c;
     same_site_ := same_site_ c |}.

Definition same_site (ssp : SameSitePolicy.t) (c : Cookie) : Cookie :=
  {| key_ := key_ c; value_ := value_ c; max_age_ := max_age_ c;
     domain_ := domain_ c; path_ := path_ c; secure_ := secure_ c;
     httponly_ := httponly_ c; expires_at_ := expires_at_ c;
     same_site_ := Some ssp |}.

(** *** A chain of setter calls, as data *)

Inductive attribute : Type :=
  | AExpires | AMaxAge | ADomain | APath | ASecure | AHttpOnly | ASameSite.

Inductive setter_call : Type :=
  | CallExpires (time : ptime)
  | CallMaxAge (age : Z)
  | CallMaxAgeDuration (dt : PosixTime.time_duration)
  | CallDomain (name : string)
  | CallPath (p : string)
  | CallSecure
  | CallHttpOnly
  | CallSameSite (ssp : SameSitePolicy.t).

#[global] Instance attribute_eq_dec : EqDecision attribute.
Proof. solve_decision. Defined.

Definition attribute_of (s : setter_call) : attribute :=
  match s with
  | CallExpires _ => AExpires
  | CallMaxAge _ | CallMaxAgeDuration _ => AMaxAge
  | CallDomain _ => ADomain
  | CallPath _ => APath
  | CallSecure => ASecure
  | CallHttpOnly => AHttpOnly
  | CallSameSite _ => ASameSite
  end.

Definition call (c : Cookie) (s : setter_call) : Cookie :=
  match s with
  | CallExpires time => expires time c
  | CallMaxAge age => max_age age c
  | CallMaxAgeDuration dt => max_age_duration dt c
  | CallDomain name => domain name c
  | CallPath p => path p c
  | CallSecure => secure c
  | CallHttpOnly => httponly c
  | CallSameSite ssp => same_site ssp c
  end.

(** [c.s1(..).s2(..)...]: the calls of [chain], first to last. *)
Definition call_chain (chain : list setter_call) (c : Cookie) : Cookie :=
  fold_left call chain c.

(** *** The layout of section 4.1 of the specification, item by item *)

Definition rendered_value (c : Cookie) : string :=
  if decide (value_ c = EmptyString)
  then String DQUOTE (String DQUOTE EmptyString) else value_ c.

Definition same_site_name (ssp : SameSitePolicy.t) : string :=
  match ssp with
  | SameSitePolicy.Strict => "Strict"
  | SameSitePolicy.Lax => "Lax"
  | SameSitePolicy.None => "None"
  end.

(** The text of the attribute [a] of [c], when [c] has it. *)
Definition attribute_text (c : Cookie) (a : attribute) : option string :=
  match a with
  | AExpires => (fun t => "Expires=" +:+ put_ptime t) <$> expires_at_ c
  | AMaxAge => (fun n => "Max-Age=" +:+ put_integer n) <$> max_age_ c
  | ADomain => if decide (domain_ c = EmptyString) then None
               else Some ("Domain=" +:+ domain_ c)
  | APath => if decide (path_ c = EmptyString) then None
             else Some ("Path=" +:+ path_ c)
  | ASecure => if secure_ c then Some "Secure" else None
  | AHttpOnly => if httponly_ c then Some "HttpOnly" else None
  | ASameSite => (fun p => "SameSite=" +:+ same_site_name p) <$> same_site_ c
  end.

Definition attribute_order : list attribute :=
  [AExpires; AMaxAge; ADomain; APath; ASecure; AHttpOnly; ASameSite].

(** [key=value], then [DIVIDER ++ text] for each present attribute. *)
Definition layout (c : Cookie) : string :=
  (key_ c +:+ "=" +:+ rendered_value c)
  +:+ String.concat EmptyString
        (map (fun text => DIVIDER +:+ text)
             (omap (attribute_text c) attribute_order)).

(** *** The per-request context *)

Record context : Type := {
  jar : gmap string string;
  cookies_to_add : list Cookie
}.

Definition empty_context : context :=
  {| jar := ∅; cookies_to_add := [] |}.

Definition get_cookie (ctx : context) (key : string) : string :=
  match jar ctx !! key with
  | Some v => v
  | None => EmptyString
  end.

(** [set_cookie]: [emplace_back]; the returned reference is the position
    of the new last element. *)
Definition set_cookie (key value : string) (ctx : context)
  : context * nat :=
  ({| jar := jar ctx;
      cookies_to_add := cookies_to_add ctx ++ [new_cookie key value] |},
   length (cookies_to_add ctx)).

(** A setter chain applied through the reference [ref]. *)
Definition through (ref : nat) (chain : list setter_call) (ctx : context)
  : context :=
  {| jar := jar ctx;
     cookies_to_add := alter (call_chain chain) ref (cookies_to_add ctx) |}.

(** *** Request and response, as far as the hooks use them *)

(** Modelled from the spec: the header multimap of [crow::request]
    ([crow/http_request.h]), a sequence of name/value pairs. *)
Record request : Type := { headers : list (string * string) }.

(** Modelled from the spec: the members of [crow::response]
    ([crow/http_response.h]) written by the hooks: the status code, the
    header multimap in insertion order, and the flag set by [end()]. *)
Record response : Type := {
  code : Z;
  res_headers : list (string * string);
  completed_ : bool
}.

(** [req.headers.count(key)]. The count is kept as a number: its
    conversion to [int] changes nothing below [2^31] headers. *)
Definition headers_count (req : request) (key : string) : Z :=
  Z.of_nat (length (filter (fun h => header_key_eq (fst h) key = true)
                           (headers req))).

(** [req.get_header_value(key)]: the value of a header with that name,
    the empty string when there is none. *)
Definition get_header_value (req : request) (key : string) : string :=
  match filter (fun h => header_key_eq (fst h) key = true) (headers req) with
  | h :: _ => snd h
  | [] => EmptyString
  end.

Definition set_code (status : Z) (res : response) : response :=
  {| code := status; res_headers := res_headers res;
     completed_ := completed_ res |}.

(** [res.end()]. *)
Definition end_ (res : response) : response :=
  {| code := code res; res_headers := res_headers res; completed_ := true |}.

(** [res.add_header(key, value)]. *)
Definition add_header (key value : string) (res : response) : response :=
  {| code := code res; res_headers := res_headers res ++ [(key, value)];
     completed_ := completed_ res |}.

Definition with_jar (j : gmap string string) (ctx : context) : context :=
  {| jar := j; cookies_to_add := cookies_to_add ctx |}.

(** *** The hooks *)

Definition before_handle (req : request) (res : response) (ctx : context)
  : result (response * context) :=
  let count := headers_count req "Cookie" in
  if count =? 0 then mret (res, ctx) else
  if 1 <? count then
    let res := set_code 400 res in
    let res := end_ res in
    mret (res, ctx)
  else
  let cookies := get_header_value req "Cookie" in
  j ← parse_cookies cookies (jar ctx);
  mret (res, with_jar j ctx).

(** The loop of [after_handle] over the cookies still to emit. *)
Fixpoint emit_cookies (cookies : list Cookie) (facet : facet_state)
    (res : response) : result (response * facet_state) :=
  match cookies with
  | [] => mret (res, facet)
  | cookie :: rest =>
      '(text, facet) ← format facet cookie;
      emit_cookies rest facet (add_header "Set-Cookie" text res)
  end.

Definition after_handle (facet : facet_state) (res : response) (ctx : context)
  : result (response * context * facet_state) :=
  '(res, facet) ← emit_cookies (cookies_to_add ctx) facet res;
  mret (res, ctx, facet).

(** *** Vocabulary on the facet *)

Definition has_expires (c : Cookie) : bool :=
  match expires_at_ c with Some _ => true | None => false end.

(** The state of the facet once [format()] has been called on each of
    [cookies] in turn, starting in state [facet]; [None] when one of the
    calls uses the deleted facet. *)
Fixpoint facet_after (cookies : list Cookie) (facet : facet_state)
  : option facet_state :=
  match cookies with
  | [] => Some facet
  | c :: rest =>
      if has_expires c then
        match facet with
        | FacetFresh => facet_after rest FacetFreed
        | FacetFreed => None
        end
      else facet_after rest facet
  end.

End Middleware.

Arguments key_ {ptime} _.
Arguments value_ {ptime} _.
Arguments max_age_ {ptime} _.
Arguments domain_ {ptime} _.
Arguments path_ {ptime} _.
Arguments secure_ {ptime} _.
Arguments httponly_ {ptime} _.
Arguments expires_at_ {ptime} _.
Arguments same_site_ {ptime} _.
Arguments new_cookie {ptime} key value.
Arguments format {ptime} put_ptime facet c.
Arguments expires {ptime} time c.
Arguments max_age {ptime} age c.
Arguments max_age_duration {ptime} dt c.
Arguments domain {ptime} name c.
Arguments path {ptime} p c.
Arguments secure {ptime} c.
Arguments httponly {ptime} c.
Arguments same_site {ptime} ssp c.
Arguments CallExpires {ptime} time.
Arguments CallMaxAge {ptime} age.
Arguments CallMaxAgeDuration {ptime} dt.
Arguments CallDomain {ptime} name.
Arguments CallPath {ptime} p.
Arguments CallSecure {ptime}.
Arguments CallHttpOnly {ptime}.
Arguments CallSameSite {ptime} ssp.
Arguments attribute_of {ptime} s.
Arguments call {ptime} c s.
Arguments call_chain {ptime} chain c.
Arguments rendered_value {ptime} c.
Arguments attribute_text {ptime} put_ptime c a.
Arguments layout {ptime} put_ptime c.
Arguments jar {ptime} _.
Arguments cookies_to_add {ptime} _.
Arguments empty_context {ptime}.
Arguments get_cookie {ptime} ctx key.
Arguments set_cookie {ptime} key value ctx.
Arguments through {ptime} ref chain ctx.
Arguments with_jar {ptime} j ctx.
Arguments before_handle {ptime} header_key_eq req res ctx.
Arguments emit_cookies {ptime} put_ptime cookies facet res.
Arguments after_handle {ptime} put_ptime facet res ctx.
Arguments has_expires {ptime} c.
Arguments facet_after {ptime} cookies facet.

(** ** Vocabulary of the statements *)

(** The position of the first character that is not a blank, at or after
    [pos] ([size cookies] when there is none); [rest] is [cookies] from
    [pos] on. *)
Fixpoint blanks_from (rest : string) (pos : Z) : Z :=
  match rest with
  | String a rest' =>
      if Ascii.eqb a " " then blanks_from rest' (pos + 1) else pos
  | EmptyString => pos
  end.

Definition blanks_end (cookies : string) (pos : Z) : Z :=
  blanks_from (drop (Z.to_nat pos) cookies) pos.

(** The last and the first character of a string ([NUL] when it is
    empty). *)
Fixpoint last_char (s : string) : ascii :=
  match s with
  | EmptyString => NUL
  | String a EmptyString => a
  | String _ r => last_char r
  end.

Definition first_char (s : string) : ascii :=
  match s with
  | EmptyString => NUL
  | String a _ => a
  end.

(** The value is wrapped in double quotes, as the parser sees it: its first
    and its last character are both the quote character. *)
Definition quote_ends (s : string) : bool :=
  (Ascii.eqb (first_char s) DQUOTE && Ascii.eqb (last_char s) DQUOTE)%bool.

(** What is left of a value once its first and last characters are removed
    (nothing, for a value of one character). *)
Definition middle (value : string) : string :=
  take (String.length value - 2) (drop 1 value).

(** A name or value with no special characters: no [=], [;] or double
    quote, and no white space at either end. *)
Definition plain (s : string) : Prop :=
  contains "=" s = false /\ contains ";" s = false /\
  contains DQUOTE s = false /\ trim s = s.

(** ** Sample data for the examples *)

(** A rendering of dates for a [ptime] with a single instant. *)
Definition sample_date (_ : unit) : string := "Wed, 09 Jun 2021 10:18:14 GMT".

(** A response as the driver hands it to the first hook. *)
Definition fresh_response : response :=
  {| code := 200; res_headers := []; completed_ := false |}.

(** ** Vocabulary of the further properties *)

(** [k] blanks. *)
Fixpoint blanks (k : nat) : string :=
  match k with
  | O => EmptyString
  | S k' => String " " (blanks k')
  end.

(** A cookie name as it can stand in a header: no [=], and no white space at
    either end. *)
Definition wire_name (name : string) : Prop :=
  contains "=" name = false /\ trim name = name.

(** A cookie value as it can stand in a header without quotes: not empty,
    no [;], no white space at either end, and not wrapped in double quotes. *)
Definition wire_value (value : string) : Prop :=
  value <> EmptyString /\ contains ";" value = false /\
  trim value = value /\ quote_ends value = false.

Definition wire_pair (p : string * string) : Prop :=
  wire_name p.1 /\ wire_value p.2.

(** The request header that carries [pairs] in order: [name=value], with a
    semicolon and [k] blanks between two pairs. *)
Fixpoint cookie_header (k : nat) (pairs : list (string * string)) : string :=
  match pairs with
  | [] => EmptyString
  | (name, value) :: rest =>
      (name +:+ "=" +:+ value)
      +:+ match rest with
          | [] => EmptyString
          | _ :: _ => ";" +:+ blanks k +:+ cookie_header k rest
          end
  end.

(** White space only. *)
Fixpoint all_space (s : string) : bool :=
  match s with
  | EmptyString => true
  | String a r => (is_space a && all_space r)%bool
  end.

(** What holds of every pair the parser stores: the name has no [=] and no
    white space at either end, the value has no [;]. *)
Definition stored_pair (p : string * string) : Prop :=
  contains "=" p.1 = false /\ trim p.1 = p.1 /\ contains ";" p.2 = false.

(** * Properties *)

(** ** Facts on [std::string] *)

Section StdStringFacts.

Implicit Types (s t : string) (c a : ascii) (n : nat).

Lemma str_app_cons a s t : String a s +:+ t = String a (s +:+ t).
Proof. reflexivity. Qed.

Lemma str_app_empty_l s : EmptyString +:+ s = s.
Proof. reflexivity. Qed.

Lemma str_app_empty_r s : s +:+ EmptyString = s.
Proof. induction s as [|a s IH]; [done|]. by rewrite str_app_cons, IH. Qed.

Lemma str_app_assoc s t u : (s +:+ t) +:+ u = s +:+ (t +:+ u).
Proof. induction s as [|a s IH]; [done|]. by rewrite !str_app_cons, IH. Qed.

Lemma str_length_app s t :
  String.length (s +:+ t) = (String.length s + String.length t)%nat.
Proof. induction s as [|a s IH]; [done|]. rewrite str_app_cons. simpl. by rewrite IH. Qed.

Lemma size_nonneg s : 0 <= size s.
Proof. unfold size. lia. Qed.

Lemma size_app s t : size (s +:+ t) = size s + size t.
Proof. unfold size. rewrite str_length_app. lia. Qed.

Lemma size_cons a s : size (String a s) = 1 + size s.
Proof. unfold size. simpl. lia. Qed.

Lemma empty_true s : empty s = true <-> s = EmptyString.
Proof. by destruct s. Qed.

Lemma empty_decide s :
  empty s = if decide (s = EmptyString) then true else false.
Proof. destruct s; by case_decide. Qed.

Lemma str_drop_empty n : drop n EmptyString = EmptyString.
Proof. by destruct n. Qed.

Lemma str_drop_app_length s t : drop (String.length s) (s +:+ t) = t.
Proof. induction s as [|a s IH]; [done|]. by rewrite str_app_cons. Qed.

Lemma str_take_app_length s t : take (String.length s) (s +:+ t) = s.
Proof. induction s as [|a s IH]; [by destruct t|]. rewrite str_app_cons. simpl. by rewrite IH. Qed.

Lemma str_take_all n s : (String.length s <= n)%nat -> take n s = s.
Proof.
  revert n. induction s as [|a s IH]; intros [|n] Hn; simpl in *; try done; [lia|].
  rewrite IH; [done|lia].
Qed.

Lemma str_length_drop n s :
  String.length (drop n s) = (String.length s - n)%nat.
Proof.
  revert s. induction n as [|n IH]; intros [|a s]; simpl; try done.
Qed.

Lemma str_length_take n s : (String.length (take n s) <= String.length s)%nat.
Proof.
  revert s. induction n as [|n IH]; intros [|a s]; simpl; try lia.
  specialize (IH s). lia.
Qed.

Lemma str_drop_drop n m s : drop n (drop m s) = drop (m + n) s.
Proof.
  revert s. induction m as [|m IH]; intros s; [done|].
  destruct s as [|a s]; simpl; [apply str_drop_empty|apply IH].
Qed.

Lemma index_of_lt c s i : index_of c s = Some i -> (i < String.length s)%nat.
Proof.
  revert i. induction s as [|a s IH]; intros i; simpl; [done|].
  destruct (Ascii.eqb a c); [intros [= <-]; lia|].
  destruct (index_of c s) as [j|]; [|done].
  intros [= <-]. specialize (IH j eq_refl). lia.
Qed.

Lemma index_of_app c s t :
  contains c s = false ->
  index_of c (s +:+ t) = (fun i => (String.length s + i)%nat) <$> index_of c t.
Proof.
  unfold contains. induction s as [|a s IH]; simpl.
  - intros _. rewrite str_app_empty_l. by destruct (index_of c t).
  - destruct (Ascii.eqb a c); [done|].
    destruct (index_of c s) eqn:E; simpl; [done|]. intros _.
    rewrite IH by done. by destruct (index_of c t).
Qed.

Lemma index_of_head c s : index_of c (String c s) = Some O.
Proof. simpl. by rewrite Ascii.eqb_refl. Qed.

Lemma contains_false_index c s : contains c s = false -> index_of c s = None.
Proof. unfold contains. by destruct (index_of c s). Qed.

Lemma contains_cons c a s :
  contains c (String a s) = (Ascii.eqb a c || contains c s)%bool.
Proof.
  unfold contains. simpl. destruct (Ascii.eqb a c); [done|].
  by destruct (index_of c s).
Qed.

(** [find] returns [npos] or a position of the string not before [pos]. *)
Lemma find_range s c pos :
  0 <= pos ->
  find s c pos = npos \/ (pos <= find s c pos < size s).
Proof.
  intros Hpos. unfold find.
  destruct (index_of c (drop (Z.to_nat pos) s)) as [i|] eqn:E; [|by left].
  right. apply index_of_lt in E. rewrite str_length_drop in E. unfold size. lia.
Qed.

Lemma substr_ok s pos (count : Z) :
  0 <= pos <= size s ->
  substr s pos count
  = Ret (take (Z.to_nat (Z.min count (size s - pos))) (drop (Z.to_nat pos) s)).
Proof.
  intros H. unfold substr. destruct (Z.ltb_spec (size s) pos); [lia|done].
Qed.

Lemma wrap_range z : 0 <= wrap z < size_t_modulus.
Proof. unfold wrap, size_t_modulus. apply Z.mod_pos_bound. lia. Qed.

Lemma wrap_small z : 0 <= z < size_t_modulus -> wrap z = z.
Proof. intros H. unfold wrap. by apply Z.mod_small. Qed.

Lemma wrap_le z : 0 <= z -> wrap z <= z.
Proof. intros H. unfold wrap, size_t_modulus. apply Z.mod_le; lia. Qed.

Lemma wrap_minus_one : wrap (-1) = npos.
Proof. reflexivity. Qed.

Lemma blanks_from_range rest pos :
  pos <= blanks_from rest pos <= pos + size rest.
Proof.
  revert pos. induction rest as [|a r IH]; intros pos; simpl.
  - unfold size; simpl; lia.
  - rewrite size_cons. destruct (Ascii.eqb a " "); [|pose proof (size_nonneg r); lia].
    specialize (IH (pos + 1)). lia.
Qed.

Lemma blanks_end_range cookies pos :
  0 <= pos <= size cookies ->
  pos <= blanks_end cookies pos <= size cookies.
Proof.
  intros H. unfold blanks_end.
  pose proof (blanks_from_range (drop (Z.to_nat pos) cookies) pos) as R.
  unfold size in *. rewrite str_length_drop in R. lia.
Qed.

Lemma trim_left_fixed a s : trim_left (String a s) = String a s -> is_space a = false.
Proof.
  simpl. destruct (is_space a) eqn:E; [|done]. intros H.
  assert (String.length (trim_left s) <= String.length s)%nat as L.
  { clear. induction s as [|b s IH]; simpl; [done|]. destruct (is_space b); simpl; lia. }
  rewrite H in L. simpl in L. lia.
Qed.

Lemma trim_left_id a s : is_space a = false -> trim_left (String a s) = String a s.
Proof. simpl. by intros ->. Qed.

Lemma length_trim_left s : (String.length (trim_left s) <= String.length s)%nat.
Proof. induction s as [|b s IH]; simpl; [done|]. destruct (is_space b); simpl; lia. Qed.

Lemma length_trim_right s : (String.length (trim_right s) <= String.length s)%nat.
Proof.
  induction s as [|b s IH]; simpl; [done|].
  destruct (empty (trim_right s) && is_space b)%bool; simpl; lia.
Qed.

Lemma trim_right_fixed s : trim s = s -> trim_right s = s.
Proof.
  unfold trim. intros H.
  pose proof (length_trim_left (trim_right s)) as L1.
  pose proof (length_trim_right s) as L2.
  assert (String.length (trim_right s) = String.length s) as L by (rewrite H in L1; lia).
  clear H L1 L2. induction s as [|b s IH]; [done|]. simpl in *.
  destruct (empty (trim_right s) && is_space b)%bool; simpl in L; [lia|].
  f_equal. apply IH. lia.
Qed.

(** A non-empty string fixed by [trim] does not start with white space. *)
Lemma trim_fixed_head a s : trim (String a s) = String a s -> is_space a = false.
Proof.
  intros H. pose proof (trim_right_fixed _ H) as R.
  unfold trim in H. rewrite R in H. by apply trim_left_fixed in H.
Qed.

Lemma not_space_not_blank a : is_space a = false -> Ascii.eqb a " " = false.
Proof. destruct (Ascii.eqb_spec a " ") as [->|]; [done|done]. Qed.

End StdStringFacts.

(** ** Facts on the parser *)

Section ParserFacts.

Implicit Types (s t cookies value name : string) (jar : gmap string string).

Lemma nth_char_lt s n :
  (n < String.length s)%nat -> exists c, nth_char n s = Some c.
Proof.
  revert n. induction s as [|a s IH]; intros n Hn; simpl in *; [lia|].
  destruct n as [|n]; [by eexists|]. apply IH. lia.
Qed.

Lemma nth_char_last s :
  s <> EmptyString ->
  nth_char (String.length s - 1) s = Some (last_char s).
Proof.
  induction s as [|a s IH]; [done|]. intros _.
  destruct s as [|b s]; [done|].
  replace (String.length (String a (String b s)) - 1)%nat
    with (S (String.length (String b s) - 1)) by (simpl; lia).
  change (nth_char (S ?n) (String a ?r)) with (nth_char n r).
  rewrite IH by done. done.
Qed.

Lemma at_first s : at_ s 0 = Ret (first_char s).
Proof.
  unfold at_. destruct s as [|a s]; [done|].
  rewrite size_cons. pose proof (size_nonneg s).
  destruct (Z.ltb_spec 0 (1 + size s)); [done|lia].
Qed.

Lemma at_ok s i : 0 <= i <= size s -> exists c, at_ s i = Ret c.
Proof.
  intros H. unfold at_. destruct (Z.ltb_spec i (size s)).
  - destruct (nth_char_lt s (Z.to_nat i)) as [c ->]; [unfold size in *; lia|].
    by eexists.
  - destruct (Z.eqb_spec i (size s)); [by eexists|lia].
Qed.

Lemma at_last s :
  s <> EmptyString -> size s <= npos ->
  at_ s (wrap (size s - 1)) = Ret (last_char s).
Proof.
  intros Hne Hsz. assert (1 <= size s) by (destruct s; [done|rewrite size_cons; pose proof (size_nonneg s); lia]).
  rewrite wrap_small by (unfold npos in *; lia).
  unfold at_. destruct (Z.ltb_spec (size s - 1) (size s)); [|lia].
  replace (Z.to_nat (size s - 1)) with (String.length s - 1)%nat
    by (unfold size; lia).
  by rewrite nth_char_last.
Qed.

Lemma nth_char_drop s n :
  (n < String.length s)%nat -> nth_char n s = Some (first_char (drop n s)).
Proof.
  revert n. induction s as [|a s IH]; intros n Hn; simpl in *; [lia|].
  destruct n as [|n]; [done|]. apply IH. lia.
Qed.

Lemma drop_succ s n a r : drop n s = String a r -> drop (S n) s = r.
Proof.
  revert s. induction n as [|n IH]; intros s; simpl.
  - by intros ->.
  - destruct s as [|b s]; [done|]. apply IH.
Qed.

Lemma drop_beyond s n : (String.length s <= n)%nat -> drop n s = EmptyString.
Proof.
  revert n. induction s as [|a s IH]; intros n Hn; [by destruct n|].
  destruct n as [|n]; simpl in *; [lia|]. apply IH. lia.
Qed.

Lemma at_drop s pos :
  0 <= pos < size s -> at_ s pos = Ret (first_char (drop (Z.to_nat pos) s)).
Proof.
  intros H. unfold at_. destruct (Z.ltb_spec pos (size s)); [|lia].
  rewrite nth_char_drop; [done|]. unfold size in *. lia.
Qed.

(** The inner loop stops at the first character that is not a blank, or at
    the end of the string, within [size cookies - pos] increments. *)
Lemma skip_blanks_spec fuel cookies pos :
  size cookies < npos -> 0 <= pos <= size cookies ->
  size cookies - pos <= Z.of_nat fuel ->
  skip_blanks fuel cookies pos = Ret (blanks_end cookies pos).
Proof.
  intros Hsz. revert pos. unfold blanks_end.
  induction fuel as [|fuel IH]; intros pos Hpos Hfuel.
  - assert (pos = size cookies) as -> by lia. simpl.
    rewrite Z.ltb_irrefl. unfold size. rewrite Nat2Z.id, drop_beyond by lia. done.
  - simpl. destruct (Z.ltb_spec pos (size cookies)) as [Hlt|Hge].
    + rewrite at_drop by lia. simpl.
      destruct (drop (Z.to_nat pos) cookies) as [|a r] eqn:D.
      { apply (f_equal String.length) in D. rewrite str_length_drop in D.
        unfold size in *. simpl in D. lia. }
      simpl. destruct (Ascii.eqb a " "); [|done].
      rewrite wrap_small by (unfold npos in *; lia).
      rewrite IH by lia.
      replace (Z.to_nat (pos + 1)) with (S (Z.to_nat pos)) by lia.
      by rewrite (drop_succ _ _ _ _ D).
    + assert (pos = size cookies) as -> by lia.
      unfold size. rewrite Nat2Z.id, drop_beyond by lia. done.
Qed.

(** The quote check never reads beyond the null terminator. *)
Lemma is_quoted_total value : exists b, is_quoted value = Ret b.
Proof.
  unfold is_quoted. rewrite at_first. simpl.
  destruct (Ascii.eqb (first_char value) DQUOTE) eqn:E; [|by eexists].
  destruct value as [|a r]; [done|].
  destruct (at_ok (String a r) (wrap (size (String a r) - 1))) as [c ->].
  - pose proof (wrap_range (size (String a r) - 1)).
    rewrite size_cons in *. pose proof (size_nonneg r).
    pose proof (wrap_le (1 + size r - 1)). lia.
  - by eexists.
Qed.

Lemma is_quoted_spec value :
  size value <= npos -> is_quoted value = Ret (quote_ends value).
Proof.
  intros Hsz. unfold is_quoted, quote_ends. rewrite at_first. simpl.
  destruct (Ascii.eqb (first_char value) DQUOTE) eqn:E; [|done].
  destruct value as [|a r]; [done|].
  rewrite at_last by done. done.
Qed.

Lemma is_quoted_empty : is_quoted EmptyString = Ret false.
Proof. reflexivity. Qed.

Lemma unquote_total value : exists v, unquote value = Ret v.
Proof.
  unfold unquote. destruct (is_quoted_total value) as [b Hb]. rewrite Hb. simpl.
  destruct b; [|by eexists].
  rewrite substr_ok; [by eexists|].
  destruct value as [|a r]; [done|]. rewrite size_cons. pose proof (size_nonneg r). lia.
Qed.

Lemma unquote_spec value :
  size value <= npos ->
  unquote value = Ret (if quote_ends value then middle value else value).
Proof.
  intros Hsz. unfold unquote. rewrite is_quoted_spec by done. simpl.
  destruct (quote_ends value) eqn:Q; [|done].
  assert (1 <= size value) as H1.
  { destruct value; [done|]. rewrite size_cons. pose proof (size_nonneg value). lia. }
  rewrite substr_ok by lia. f_equal. unfold middle. f_equal.
  destruct (Z.eq_dec (size value) 1) as [E|E].
  - rewrite E. change (wrap (1 - 2)) with npos. unfold size in E.
    replace (String.length value) with 1%nat by lia. reflexivity.
  - rewrite wrap_small by (unfold npos in *; lia). unfold size. lia.
Qed.

End ParserFacts.

Section LoopFacts.

Implicit Types (s t cookies value name : string) (jar : gmap string string).

(** The body of the loop with the [size_t] arithmetic resolved, for a
    position inside a string whose size is a valid [size_t]. *)
Lemma parse_pair_unfold cookies pos jar :
  size cookies < npos -> 0 <= pos < size cookies ->
  parse_pair cookies pos jar =
    let pos_equal := find cookies "=" pos in
    if pos_equal =? npos then Ret (Break jar) else
    let name := trim (take (Z.to_nat (pos_equal - pos))
                           (drop (Z.to_nat pos) cookies)) in
    let start := blanks_end cookies (pos_equal + 1) in
    if start =? size cookies then Ret (Break jar) else
    let pos_semicolon := find cookies ";" start in
    let raw := if pos_semicolon =? npos
               then drop (Z.to_nat start) cookies
               else take (Z.to_nat (pos_semicolon - start))
                         (drop (Z.to_nat start) cookies) in
    value ← unquote (trim raw);
    if pos_semicolon =? npos then Ret (Break (emplace name value jar))
    else Ret (Continue (blanks_end cookies (pos_semicolon + 1))
                       (emplace name value jar)).
Proof.
  intros Hsz Hpos. unfold parse_pair. cbv zeta.
  destruct (find_range cookies "=" pos) as [E|E]; [lia| |].
  { rewrite E. done. }
  destruct (Z.eqb_spec (find cookies "=" pos) npos) as [|Hne]; [done|].
  set (pe := find cookies "=" pos) in *.
  assert (Hmod : size_t_modulus = npos + 1) by (unfold npos; lia).
  rewrite (wrap_small (pe - pos)) by lia.
  rewrite (wrap_small (pe + 1)) by lia.
  rewrite (substr_ok cookies pos) by lia. simpl.
  rewrite Z.min_l by lia.
  rewrite skip_blanks_spec by (unfold size in *; lia). simpl.
  pose proof (blanks_end_range cookies (pe + 1)) as Hs.
  set (start := blanks_end cookies (pe + 1)) in *.
  destruct (Z.eqb_spec start (size cookies)) as [|Hne2]; [done|].
  destruct (find_range cookies ";" start) as [F|F]; [lia| |].
  - rewrite F. simpl. rewrite (wrap_small (npos - start)) by lia.
    rewrite substr_ok by lia. simpl. rewrite Z.min_r by lia.
    rewrite (str_take_all _ (drop (Z.to_nat start) cookies)); [done|]. rewrite str_length_drop. unfold size. lia.
  - set (ps := find cookies ";" start) in *.
    destruct (Z.eqb_spec ps npos) as [|Hne3]; [lia|].
    rewrite (wrap_small (ps - start)) by lia.
    rewrite (wrap_small (ps + 1)) by lia.
    rewrite substr_ok by lia. simpl. rewrite Z.min_l by lia.
    rewrite skip_blanks_spec by (unfold size in *; lia).
    by destruct (unquote _).
Qed.

(** An iteration completes: it leaves the loop for one of three reasons,
    or it moves [pos] forward. *)
Lemma parse_pair_progress cookies pos jar :
  size cookies < npos -> 0 <= pos < size cookies ->
  let pos_equal := find cookies "=" pos in
  let start := blanks_end cookies (pos_equal + 1) in
  let pos_semicolon := find cookies ";" start in
  (pos_equal = npos /\ parse_pair cookies pos jar = Ret (Break jar))
  \/ (pos_equal <> npos /\ start = size cookies
      /\ parse_pair cookies pos jar = Ret (Break jar))
  \/ (pos_equal <> npos /\ start <> size cookies /\ pos_semicolon = npos
      /\ exists jar', parse_pair cookies pos jar = Ret (Break jar'))
  \/ (exists pos' jar', parse_pair cookies pos jar = Ret (Continue pos' jar')
                        /\ pos < pos' <= size cookies).
Proof.
  intros Hsz Hpos. rewrite parse_pair_unfold by done. cbv zeta.
  destruct (Z.eqb_spec (find cookies "=" pos) npos) as [|Hne]; [by left|].
  destruct (find_range cookies "=" pos) as [E|E]; [lia|done|].
  pose proof (blanks_end_range cookies (find cookies "=" pos + 1)) as Hs.
  destruct (Z.eqb_spec (blanks_end cookies (find cookies "=" pos + 1))
                       (size cookies)) as [|Hne2]; [by right; left|].
  set (start := blanks_end cookies (find cookies "=" pos + 1)) in *.
  match goal with |- context [unquote ?v] =>
    destruct (unquote_total v) as [w ->] end. simpl.
  destruct (Z.eqb_spec (find cookies ";" start) npos) as [|Hne3];
    [right; right; left; by eauto|].
  destruct (find_range cookies ";" start) as [F|F]; [lia|done|].
  pose proof (blanks_end_range cookies (find cookies ";" start + 1)).
  right; right; right. do 2 eexists. split; [done|]. lia.
Qed.

(** The jar after an iteration is the jar before it, or that jar after
    one [emplace]. *)
Lemma parse_pair_jar cookies pos jar st :
  parse_pair cookies pos jar = Ret st ->
  jar_of st = jar \/ exists name value, jar_of st = emplace name value jar.
Proof.
  unfold parse_pair. cbv zeta.
  repeat match goal with
  | |- context [if ?b then _ else _] => destruct b
  | |- context [mbind _ ?m] => destruct m; simpl
  | |- Ret _ = Ret _ -> _ => intros [= <-]
  | |- mret _ = Ret _ -> _ => intros [= <-]
  end; try done; eauto.
Qed.

(** [size cookies - pos] iterations are enough. *)
Lemma cookie_loop_total fuel cookies pos jar :
  size cookies < npos -> 0 <= pos -> size cookies - pos <= Z.of_nat fuel ->
  exists jar', cookie_loop fuel cookies pos jar = Ret jar'.
Proof.
  intros Hsz. revert pos jar.
  induction fuel as [|fuel IH]; intros pos jar Hpos Hfuel; simpl.
  - destruct (Z.ltb_spec pos (size cookies)); [lia|by eexists].
  - destruct (Z.ltb_spec pos (size cookies)); [|by eexists].
    destruct (parse_pair_progress cookies pos jar)
      as [[_ ->]|[(_ & _ & ->)|[(_ & _ & _ & j & ->)|(p & j & -> & Hp)]]];
      [done|lia|by eexists..|].
    simpl. apply IH; lia.
Qed.

Lemma parse_cookies_total cookies jar :
  size cookies < npos -> exists jar', parse_cookies cookies jar = Ret jar'.
Proof.
  intros Hsz. apply cookie_loop_total; [done|lia|unfold size; lia].
Qed.

(** More fuel does not change a result. *)
Lemma cookie_loop_fuel fuel fuel' cookies pos jar jar' :
  cookie_loop fuel cookies pos jar = Ret jar' -> (fuel <= fuel')%nat ->
  cookie_loop fuel' cookies pos jar = Ret jar'.
Proof.
  revert fuel' pos jar. induction fuel as [|fuel IH]; intros fuel' pos jar; simpl.
  - destruct (pos <? size cookies) eqn:E; [done|]. intros H _.
    destruct fuel'; simpl; by rewrite E.
  - destruct (pos <? size cookies) eqn:E.
    + intros H Hle. destruct fuel' as [|fuel']; [lia|]. simpl. rewrite E.
      destruct (parse_pair cookies pos jar) as [[j|p j]| | |]; simpl in *; try done.
      apply IH; [done|lia].
    + intros H _. destruct fuel'; simpl; by rewrite E.
Qed.

(** Whatever [emplace] preserves, the loop preserves. *)
Lemma cookie_loop_invariant (P : gmap string string -> Prop) fuel cookies
    pos jar jar' :
  (forall name value j, P j -> P (emplace name value j)) ->
  P jar -> cookie_loop fuel cookies pos jar = Ret jar' -> P jar'.
Proof.
  intros HP. revert pos jar.
  induction fuel as [|fuel IH]; intros pos jar Hjar; simpl.
  - destruct (pos <? size cookies); [done|]. by intros [= <-].
  - destruct (pos <? size cookies); [|by intros [= <-]].
    destruct (parse_pair cookies pos jar) as [st| | |] eqn:E; simpl; try done.
    apply parse_pair_jar in E.
    destruct st as [j|p j]; simpl in E.
    + intros [= <-]. destruct E as [->|(n & v & ->)]; auto.
    + apply IH. destruct E as [->|(n & v & ->)]; auto.
Qed.

Lemma emplace_fresh name value jar :
  jar !! name = None -> emplace name value jar !! name = Some value.
Proof. intros H. unfold emplace. rewrite H. apply lookup_insert_eq. Qed.

Lemma emplace_taken name value jar :
  is_Some (jar !! name) -> emplace name value jar = jar.
Proof. intros [v H]. unfold emplace. by rewrite H. Qed.

(** [emplace] never changes a binding. *)
Lemma emplace_keeps name value jar k v :
  jar !! k = Some v -> emplace name value jar !! k = Some v.
Proof.
  intros H. unfold emplace. destruct (jar !! name) eqn:E; [done|].
  rewrite lookup_insert_ne; [done|]. intros ->. congruence.
Qed.

Lemma emplace_lookup name value jar :
  emplace name value jar !! name = Some (default value (jar !! name)).
Proof.
  unfold emplace. destruct (jar !! name) eqn:E; simpl; [done|].
  apply lookup_insert_eq.
Qed.

End LoopFacts.

Section SinglePair.

Implicit Types (s t cookies value name : string) (jar : gmap string string).

Lemma find_app_head s c t :
  contains c s = false -> find (s +:+ String c t) c 0 = size s.
Proof.
  intros H. unfold find. simpl. rewrite index_of_app by done.
  rewrite index_of_head. simpl. unfold size. lia.
Qed.

Lemma find_absent s c t :
  contains c t = false -> find (s +:+ t) c (size s) = npos.
Proof.
  intros H. unfold find, size. rewrite Nat2Z.id, str_drop_app_length.
  by rewrite contains_false_index.
Qed.

Lemma blanks_end_stays s a t :
  Ascii.eqb a " " = false -> blanks_end (s +:+ String a t) (size s) = size s.
Proof.
  intros H. unfold blanks_end, size. rewrite Nat2Z.id, str_drop_app_length.
  simpl. by rewrite H.
Qed.

(** A header made of one pair whose value does not start with a blank and
    holds no semicolon: one iteration, which ends the loop. *)
Lemma parse_single name a w jar :
  contains "=" name = false ->
  Ascii.eqb a " " = false ->
  contains ";" (String a w) = false ->
  size (name +:+ "=" +:+ String a w) < npos ->
  parse_cookies (name +:+ "=" +:+ String a w) jar
  = value ← unquote (trim (String a w));
    Ret (emplace (trim name) value jar).
Proof.
  intros Hname Ha Hw Hsz. unfold parse_cookies.
  set (cookies := name +:+ "=" +:+ String a w) in *.
  assert (size cookies = size name + 1 + (1 + size w)) as Hsize.
  { unfold cookies. rewrite !size_app, (size_cons a w).
    change (size "=") with 1. lia. }
  pose proof (size_nonneg name). pose proof (size_nonneg w).
  destruct (String.length cookies) as [|fuel] eqn:L.
  { unfold size in Hsize. lia. }
  simpl. destruct (Z.ltb_spec 0 (size cookies)); [|lia].
  rewrite parse_pair_unfold by lia. cbv zeta.
  assert (find cookies "=" 0 = size name) as ->.
  { unfold cookies. change ("=" +:+ String a w) with (String "="%char (String a w)).
    by apply find_app_head. }
  destruct (Z.eqb_spec (size name) npos); [lia|].
  assert (cookies = (name +:+ "=") +:+ String a w) as Hassoc.
  { unfold cookies. by rewrite str_app_assoc. }
  assert (size name + 1 = size (name +:+ "=")) as Hpe.
  { rewrite size_app. reflexivity. }
  rewrite Hpe, Hassoc, blanks_end_stays by done.
  rewrite <- Hassoc.
  destruct (Z.eqb_spec (size (name +:+ "=")) (size cookies)); [lia|].
  assert (find cookies ";" (size (name +:+ "=")) = npos) as F.
  { rewrite Hassoc. by apply find_absent. }
  assert (drop (Z.to_nat (size (name +:+ "="))) cookies = String a w) as D.
  { rewrite Hassoc. unfold size. by rewrite Nat2Z.id, str_drop_app_length. }
  assert (take (Z.to_nat (size name - 0)) cookies = name) as T.
  { unfold cookies, size. rewrite Z.sub_0_r, Nat2Z.id. apply str_take_app_length. }
  change (drop (Z.to_nat 0) cookies) with cookies.
  rewrite F, D, T. simpl.
  destruct (unquote (trim (String a w))); done.
Qed.

Lemma contains_head_false c a s :
  contains c (String a s) = false -> Ascii.eqb a c = false /\ contains c s = false.
Proof. rewrite contains_cons. by intros [? ?]%orb_false_elim. Qed.

(** A string without a double quote is not wrapped in quotes. *)
Lemma quote_ends_false s : contains DQUOTE s = false -> quote_ends s = false.
Proof.
  unfold quote_ends. destruct s as [|a s]; [done|].
  intros [H _]%contains_head_false. simpl. by rewrite H.
Qed.

Lemma size_app_le_r s t bound : size (s +:+ t) < bound -> size t <= bound.
Proof. rewrite size_app. pose proof (size_nonneg s). lia. Qed.

End SinglePair.

(** ** The claims on the parser *)

Section ParserClaims.

Implicit Types (cookies value name : string) (jar : gmap string string).

Lemma emplace_empty name value : emplace name value ∅ = {[ name := value ]}.
Proof. unfold emplace. rewrite lookup_empty. apply insert_empty. Qed.

(** C3, as amended: for every name and every non-empty value with no
    special characters (no [=], [;] or double quote, no white space at
    either end), parsing the header [name=value] into an empty jar yields
    the jar [{name: value}]; and parsing [a=1; b=2; c=3] yields
    [{a: 1, b: 2, c: 3}]. *)
Theorem parse_plain_pair name value :
  plain name -> plain value -> value <> EmptyString ->
  size (name +:+ "=" +:+ value) < npos ->
  parse_cookies (name +:+ "=" +:+ value) ∅ = Ret {[ name := value ]}
  /\ parse_cookies "a=1; b=2; c=3" ∅
     = Ret {[ "a" := "1"; "b" := "2"; "c" := "3" ]}.
Proof.
  intros (Hn & _ & _ & Htn) (_ & Hv & Hq & Htv) Hne Hsz.
  split; [|by vm_compute].
  destruct value as [|a w]; [done|].
  rewrite parse_single; try done.
  - rewrite unquote_spec.
    + rewrite Htv, Htn, quote_ends_false by done. simpl. by rewrite emplace_empty.
    + rewrite Htv. apply Z.lt_le_incl.
      rewrite <- str_app_assoc in Hsz. rewrite size_app in Hsz.
      pose proof (size_nonneg (name +:+ "=")). lia.
  - apply not_space_not_blank. by apply trim_fixed_head in Htv.
Qed.

(** C4: whenever an iteration of the loop reaches the quote check with a
    trimmed value of length zero, the check reads only the null terminator
    and answers "not quoted", nothing is stripped, and the pair is put in
    the jar with the empty value; parsing as a whole never reads out of
    bounds, and [a=;b=c] maps [a] to the empty value and [b] to [c]. *)
Theorem empty_value_accepted cookies pos jar name start raw :
  size cookies < npos -> 0 <= pos ->
  let pos_equal := find cookies "=" pos in
  pos_equal <> npos ->
  substr cookies pos (wrap (pos_equal - pos)) = Ret name ->
  skip_blanks (String.length cookies) cookies (wrap (pos_equal + 1))
  = Ret start ->
  start <> size cookies ->
  let pos_semicolon := find cookies ";" start in
  substr cookies start (wrap (pos_semicolon - start)) = Ret raw ->
  trim raw = EmptyString ->
  at_ (trim raw) 0 = Ret NUL
  /\ is_quoted (trim raw) = Ret false
  /\ unquote (trim raw) = Ret EmptyString
  /\ (exists st, parse_pair cookies pos jar = Ret st
                 /\ jar_of st = emplace (trim name) EmptyString jar
                 /\ jar_of st !! trim name
                    = Some (default EmptyString (jar !! trim name)))
  /\ (exists jar', parse_cookies cookies jar = Ret jar')
  /\ parse_cookies "a=;b=c" ∅ = Ret {[ "a" := EmptyString; "b" := "c" ]}.
Proof.
  intros Hsz Hpos pos_equal Hpe Hname Hskip Hstart pos_semicolon Hraw Hempty.
  rewrite Hempty.
  split; [done|]. split; [done|]. split; [done|]. split; [|split].
  - assert (Hmod : size_t_modulus = npos + 1) by (unfold npos; lia).
    destruct (find_range cookies "=" pos Hpos) as [E|E]; [done|].
    fold pos_equal in E.
    rewrite (wrap_small (pos_equal + 1)) in Hskip by lia.
    rewrite skip_blanks_spec in Hskip by (unfold size in *; lia).
    injection Hskip as Hs.
    pose proof (blanks_end_range cookies (pos_equal + 1)) as R.
    unfold parse_pair. cbv zeta. fold pos_equal.
    destruct (Z.eqb_spec pos_equal npos); [done|].
    rewrite Hname. simpl.
    rewrite (wrap_small (pos_equal + 1)) by lia.
    rewrite skip_blanks_spec by (unfold size in *; lia). simpl.
    rewrite Hs. destruct (Z.eqb_spec start (size cookies)); [done|].
    fold pos_semicolon. rewrite Hraw. simpl. rewrite Hempty. simpl.
    destruct (Z.eqb_spec pos_semicolon npos) as [|Hne].
    + eexists. split; [done|]. split; [done|]. apply emplace_lookup.
    + destruct (find_range cookies ";" start) as [F|F]; [lia|done|].
      fold pos_semicolon in F.
      rewrite (wrap_small (pos_semicolon + 1)) by lia.
      rewrite skip_blanks_spec by (unfold size in *; lia). simpl.
      eexists. split; [done|]. split; [done|]. apply emplace_lookup.
  - by apply parse_cookies_total.
  - by vm_compute.
Qed.

(** C6: [emplace] is first-write-wins. Once the parser has put
    [(name, value)] in the jar, whatever the rest of the header holds, the
    final jar maps [name] to the value it had before that insertion if there
    was one, and to [value] otherwise; [dup=1; dup=2] yields [{dup: 1}]. *)
Theorem first_write_wins cookies pos jar name value :
  size cookies < npos -> 0 <= pos ->
  (exists jar',
      cookie_loop (String.length cookies) cookies pos
                  (emplace name value jar) = Ret jar'
      /\ jar' !! name = Some (default value (jar !! name)))
  /\ parse_cookies "dup=1; dup=2" ∅ = Ret {[ "dup" := "1" ]}.
Proof.
  intros Hsz Hpos. split; [|by vm_compute].
  destruct (cookie_loop_total (String.length cookies) cookies pos
              (emplace name value jar)) as [jar' Hloop];
    [done|done|unfold size; lia|].
  exists jar'. split; [done|].
  apply (cookie_loop_invariant
           (fun j => j !! name = Some (default value (jar !! name)))
           _ _ _ _ _ (fun n v j H => emplace_keeps n v j _ _ H)
           (emplace_lookup name value jar) Hloop).
Qed.

(** C7 on the code: a value that is one double-quote character passes the
    check (it is its own first and last character), [value.size() - 2]
    wraps around, and the value becomes empty instead of being left
    as it is. *)
Theorem lone_quote_stripped :
  let lone := String DQUOTE EmptyString in
  is_quoted lone = Ret true
  /\ wrap (size lone - 2) = npos
  /\ unquote lone = Ret EmptyString
  /\ unquote lone <> Ret lone
  /\ parse_cookies ("a=" +:+ lone) ∅ = Ret {[ "a" := EmptyString ]}.
Proof. repeat split; by vm_compute. Qed.

(** C10: the inner loops that skip blanks end, at the first character that
    is not a blank or at the end of the string; every iteration of the main
    loop either leaves it (no [=] left, the input is exhausted after the
    blanks that follow [=], or no [;] is left) or continues at a strictly
    larger position; so the loop ends and parsing is a total function of the
    header. *)
Theorem parser_terminates cookies jar :
  size cookies < npos ->
  (forall pos, 0 <= pos <= size cookies ->
     skip_blanks (String.length cookies) cookies pos
     = Ret (blanks_end cookies pos)
     /\ pos <= blanks_end cookies pos <= size cookies)
  /\ (forall pos jar0, 0 <= pos < size cookies ->
       let pos_equal := find cookies "=" pos in
       let start := blanks_end cookies (pos_equal + 1) in
       let pos_semicolon := find cookies ";" start in
       (pos_equal = npos /\ parse_pair cookies pos jar0 = Ret (Break jar0))
       \/ (pos_equal <> npos /\ start = size cookies
           /\ parse_pair cookies pos jar0 = Ret (Break jar0))
       \/ (pos_equal <> npos /\ start <> size cookies /\ pos_semicolon = npos
           /\ exists jar', parse_pair cookies pos jar0 = Ret (Break jar'))
       \/ (exists pos' jar',
              parse_pair cookies pos jar0 = Ret (Continue pos' jar')
              /\ pos < pos' <= size cookies))
  /\ (forall pos fuel, 0 <= pos -> size cookies - pos <= Z.of_nat fuel ->
        exists jar', cookie_loop fuel cookies pos jar = Ret jar')
  /\ exists jar', parse_cookies cookies jar = Ret jar'.
Proof.
  intros Hsz. split; [|split; [|split]].
  - intros pos Hpos. split; [|by apply blanks_end_range].
    apply skip_blanks_spec; [done|done|unfold size; lia].
  - intros pos jar0 Hpos. by apply parse_pair_progress.
  - intros pos fuel Hpos Hfuel. by apply cookie_loop_total.
  - by apply parse_cookies_total.
Qed.

End ParserClaims.
(** ** The text that [format()] writes *)

Section FormatLayout.

Context {ptime : Type}.
Variable put_ptime : ptime -> string.

Implicit Types (c : Cookie ptime).

Lemma concat_cons_empty (x : string) (l : list string) :
  String.concat EmptyString (x :: l) = x +:+ String.concat EmptyString l.
Proof. destruct l as [|y l]; simpl; [by rewrite str_app_empty_r|done]. Qed.

(** [format] returns the layout of the specification, unless it has to use
    the deleted facet. *)
Lemma format_layout c facet :
  format put_ptime facet c
  = match expires_at_ c, facet with
    | None, _ => Ret (layout put_ptime c, facet)
    | Some _, FacetFresh => Ret (layout put_ptime c, FacetFreed)
    | Some _, FacetFreed => Undefined
    end.
Proof.
  unfold format, layout, rendered_value, attribute_order. cbv zeta.
  destruct c as [k v ma d p sec ho ex ss]. simpl.
  rewrite !(empty_decide v), !(empty_decide d), !(empty_decide p).
  rewrite str_app_empty_l.
  destruct ex as [t|], facet, ma as [n|], (decide (d = EmptyString)),
    (decide (p = EmptyString)), sec, ho, ss as [[| |]|];
    destruct (decide (v = EmptyString)); simpl;
    rewrite ?concat_cons_empty; simpl;
    rewrite ?str_app_assoc, ?str_app_empty_r; reflexivity.
Qed.

Lemma format_no_expires c facet :
  expires_at_ c = None ->
  format put_ptime facet c = Ret (layout put_ptime c, facet).
Proof. intros H. rewrite format_layout. by rewrite H. Qed.

End FormatLayout.


(** ** The claims on [Cookie] and on the hooks *)

Section MiddlewareClaims.

Context {ptime : Type}.
Variable put_ptime : ptime -> string.
Variable header_key_eq : string -> string -> bool.

Implicit Types (c : Cookie ptime) (ctx : context ptime) (res : response)
  (req : request) (chain : list (setter_call ptime)).

(** Setters of two different attributes commute. *)
Lemma call_swap c (s1 s2 : setter_call ptime) :
  attribute_of s1 <> attribute_of s2 ->
  call (call c s1) s2 = call (call c s2) s1.
Proof. destruct s1, s2; simpl; intros H; try done. Qed.

Lemma call_chain_permutation chain chain' c :
  chain ≡ₚ chain' -> NoDup (attribute_of <$> chain) ->
  call_chain chain c = call_chain chain' c.
Proof.
  intros Hperm. revert c.
  induction Hperm as [|s l l' Hperm IH|s1 s2 l|l1 l2 l3 H12 IH12 H23 IH23];
    intros c Hnd.
  - done.
  - simpl. apply IH. by apply NoDup_cons_1_2 in Hnd.
  - simpl. rewrite call_swap; [done|].
    rewrite !fmap_cons in Hnd. apply NoDup_cons_1_1 in Hnd.
    intros E. apply Hnd. rewrite E. by left.
  - rewrite IH12 by done. apply IH23.
    by rewrite <- H12.
Qed.

(** C1 on the code: for a cookie with Expires, the first call of
    [format()] in the process returns the text the claim describes and
    leaves the static facet deleted; the next call of [format()] on that
    cookie, or on any other cookie with Expires, uses the deleted facet and
    is undefined. *)
Theorem format_expires_twice c t :
  let c' := expires t c in
  format put_ptime FacetFresh c' = Ret (layout put_ptime c', FacetFreed)
  /\ (forall key value,
        layout put_ptime (expires t (new_cookie key value))
        = key +:+ "=" +:+ rendered_value (new_cookie (ptime := ptime) key value)
          +:+ "; Expires=" +:+ put_ptime t)
  /\ format put_ptime FacetFreed c' = Undefined
  /\ ('(_, facet) ← format put_ptime FacetFresh c';
      format put_ptime facet c') = Undefined
  /\ (forall c2 t2,
        ('(_, facet) ← format put_ptime FacetFresh c';
         format put_ptime facet (expires t2 c2)) = Undefined).
Proof.
  intros c'. split; [by rewrite format_layout|]. split.
  { intros key value. unfold layout, rendered_value. simpl.
    by rewrite !str_app_assoc. }
  split; [by rewrite format_layout|]. split.
  - by rewrite !format_layout.
  - intros c2 t2. by rewrite !format_layout.
Qed.

(** C2: with no [Cookie] header, [before_handle] changes neither the
    response nor the context; with two or more, it sets the status to 400,
    ends the response and leaves the context (hence the jar) as it was,
    without parsing; with exactly one, it parses that header's value into
    the jar. *)
Theorem before_handle_by_count req res ctx :
  let count := headers_count header_key_eq req "Cookie" in
  (count = 0 ->
     before_handle header_key_eq req res ctx = Ret (res, ctx))
  /\ (2 <= count ->
        exists res',
          before_handle header_key_eq req res ctx = Ret (res', ctx)
          /\ code res' = 400 /\ completed_ res' = true
          /\ res_headers res' = res_headers res)
  /\ (count = 1 ->
        let cookies := get_header_value header_key_eq req "Cookie" in
        size cookies < npos ->
        exists j,
          parse_cookies cookies (jar ctx) = Ret j
          /\ before_handle header_key_eq req res ctx
             = Ret (res, with_jar j ctx)).
Proof.
  intros count. unfold before_handle. fold count.
  generalize count. clear count. intros count. split; [|split].
  - intros ->. done.
  - intros H. destruct (Z.eqb_spec count 0); [lia|].
    destruct (Z.ltb_spec 1 count); [|lia]. by eexists.
  - intros -> Hsz. simpl.
    destruct (parse_cookies_total _ (jar ctx) Hsz) as [j Hj].
    exists j. split; [done|]. by rewrite Hj.
Qed.

(** C5 on the code: the overload for a duration stores [dt.seconds()],
    the seconds field of the duration (between -59 and 59), not the duration
    in whole seconds, and [format()] emits that field: for a duration of one
    minute and thirty seconds the header says [Max-Age=30], for one hour
    [Max-Age=0], while the other overload, given 90, says [Max-Age=90]. *)
Theorem max_age_duration_seconds_field :
  (forall dt c,
      max_age_ (max_age_duration dt c)
      = Some (Z.rem (PosixTime.total_seconds dt) 60))
  /\ PosixTime.total_seconds (PosixTime.of_hms 0 1 30) = 90
  /\ (forall facet,
        format put_ptime facet (max_age_duration (PosixTime.of_hms 0 1 30)
                                                 (new_cookie "k" "v"))
        = Ret ("k=v; Max-Age=30", facet))
  /\ PosixTime.total_seconds (PosixTime.of_hms 1 0 0) = 3600
  /\ (forall facet,
        format put_ptime facet (max_age_duration (PosixTime.of_hms 1 0 0)
                                                 (new_cookie "k" "v"))
        = Ret ("k=v; Max-Age=0", facet))
  /\ (forall facet,
        format put_ptime facet (max_age 90 (new_cookie "k" "v"))
        = Ret ("k=v; Max-Age=90", facet)).
Proof. repeat split; try intros facet; by vm_compute. Qed.

Lemma add_headers_fold (texts : list string) res :
  fold_left (fun res text => add_header "Set-Cookie" text res) texts res
  = {| code := code res;
       res_headers := res_headers res
                      ++ map (fun text => ("Set-Cookie", text)) texts;
       completed_ := completed_ res |}.
Proof.
  revert res. induction texts as [|t l IH]; intros res; simpl.
  - rewrite app_nil_r. by destruct res.
  - rewrite IH. simpl. by rewrite <- app_assoc.
Qed.

(** The response once a [Set-Cookie] header is added for each cookie. *)
Lemma emit_cookies_spec (cookies : list (Cookie ptime)) facet res :
  emit_cookies put_ptime cookies facet res
  = match facet_after cookies facet with
    | Some facet' =>
        Ret ({| code := code res;
                res_headers :=
                  res_headers res
                  ++ map (fun c => ("Set-Cookie", layout put_ptime c)) cookies;
                completed_ := completed_ res |}, facet')
    | None => Undefined
    end.
Proof.
  revert facet res. induction cookies as [|c l IH]; intros facet res; simpl.
  - rewrite app_nil_r. by destruct res.
  - rewrite format_layout. unfold has_expires.
    destruct (expires_at_ c) as [t|], facet; simpl; try done;
      rewrite IH; destruct (facet_after l _); simpl; try done;
      by rewrite <- app_assoc.
Qed.

Lemma facet_after_freed (cookies : list (Cookie ptime)) :
  (1 <= length (filter (fun c => has_expires c = true) cookies))%nat ->
  facet_after cookies FacetFreed = None.
Proof.
  induction cookies as [|c l IH]; simpl; [lia|].
  rewrite filter_cons. destruct (has_expires c) eqn:E; [done|].
  destruct (decide (false = true)); [done|]. apply IH.
Qed.

Lemma facet_after_twice (cookies : list (Cookie ptime)) facet :
  (2 <= length (filter (fun c => has_expires c = true) cookies))%nat ->
  facet_after cookies facet = None.
Proof.
  revert facet. induction cookies as [|c l IH]; intros facet; simpl; [lia|].
  rewrite filter_cons. destruct (has_expires c) eqn:E.
  - destruct (decide (true = true)); [|done]. simpl. intros H.
    destruct facet; [|done]. apply facet_after_freed. lia.
  - destruct (decide (false = true)); [done|]. apply IH.
Qed.

(** C8 on the code: [after_handle] calls [format()] once per staged cookie.
    When two or more of the staged cookies have Expires, or one has and the
    facet was deleted by an earlier call, a call of the loop uses the
    deleted facet and [after_handle] is undefined, where the claim has one
    header per entry. *)
Theorem after_handle_expires_twice facet res ctx :
  let n := length (filter (fun c => has_expires c = true)
                          (cookies_to_add ctx)) in
  (2 <= n)%nat \/ ((1 <= n)%nat /\ facet = FacetFreed) ->
  after_handle put_ptime facet res ctx = Undefined.
Proof.
  intros n H. unfold after_handle. rewrite emit_cookies_spec.
  assert (facet_after (cookies_to_add ctx) facet = None) as ->; [|done].
  destruct H as [H|[H ->]].
  - by apply facet_after_twice.
  - by apply facet_after_freed.
Qed.

Lemma format_new_cookie key value facet :
  format put_ptime facet (new_cookie (ptime := ptime) key value)
  = Ret (key +:+ "=" +:+ (if empty value
                          then String DQUOTE (String DQUOTE EmptyString)
                          else value), facet).
Proof. unfold format, new_cookie. simpl. by rewrite str_app_empty_l, str_app_assoc. Qed.

(** C9, as amended: for a cookie with only a key and a value, where the key
    holds no [=] and has no white space at either end, and the value is
    empty, or holds no [;], has no white space at either end and does not
    both start and end with a double quote, [format()] returns, in any state
    of the facet, and parsing its output as the request header yields a jar
    that maps the key to the value. *)
Theorem format_parse_roundtrip key value facet :
  contains "=" key = false -> trim key = key ->
  (value = EmptyString
   \/ (contains ";" value = false /\ trim value = value
       /\ quote_ends value = false)) ->
  exists text,
    format put_ptime facet (new_cookie key value) = Ret (text, facet)
    /\ (size text < npos -> parse_cookies text ∅ = Ret {[ key := value ]}).
Proof.
  intros Hk Htk Hv. rewrite format_new_cookie. eexists. split; [done|].
  intros Hsz.
  destruct Hv as [->|(Hsemi & Htv & Hq)].
  - simpl in *. rewrite parse_single by done.
    change (unquote (trim (String DQUOTE (String DQUOTE EmptyString))))
      with (Ret (A := string) EmptyString).
    simpl. by rewrite Htk, emplace_empty.
  - destruct value as [|a w]; simpl in *.
    { rewrite parse_single by done.
      change (unquote (trim (String DQUOTE (String DQUOTE EmptyString))))
        with (Ret (A := string) EmptyString).
      simpl. by rewrite Htk, emplace_empty. }
    rewrite parse_single; try done.
    + rewrite unquote_spec.
      * rewrite Htv, Hq. simpl. by rewrite Htk, emplace_empty.
      * rewrite Htv. apply Z.lt_le_incl.
        rewrite <- str_app_assoc in Hsz. rewrite size_app in Hsz.
        pose proof (size_nonneg (key +:+ "=")). lia.
    + apply not_space_not_blank. by apply trim_fixed_head in Htv.
Qed.

End MiddlewareClaims.

(** ** The examples of the specification, evaluated *)

Example format_flags :
  format sample_date FacetFresh
    (same_site SameSitePolicy.Lax (httponly (secure (new_cookie "k" "v"))))
  = Ret ("k=v; Secure; HttpOnly; SameSite=Lax", FacetFresh).
Proof. reflexivity. Qed.

Example format_empty_value :
  format sample_date FacetFresh (new_cookie "k" EmptyString)
  = Ret ("k=" +:+ String DQUOTE (String DQUOTE EmptyString), FacetFresh).
Proof. reflexivity. Qed.

Example format_all_attributes :
  format sample_date FacetFresh
    (same_site SameSitePolicy.Lax (path "/" (max_age 3600 (httponly
       (domain "example.com" (secure (expires tt (new_cookie "session" "abc123"))))))))
  = Ret ("session=abc123; Expires=Wed, 09 Jun 2021 10:18:14 GMT; Max-Age=3600; Domain=example.com; Path=/; Secure; HttpOnly; SameSite=Lax",
         FacetFreed).
Proof. reflexivity. Qed.

Example parse_quoted_value :
  parse_cookies ("a=" +:+ String DQUOTE "quoted value"
                 +:+ String DQUOTE EmptyString) ∅
  = Ret {[ "a" := "quoted value" ]}.
Proof. by vm_compute. Qed.

Example parse_without_equal : parse_cookies "a=1; junk" ∅ = Ret {[ "a" := "1" ]}.
Proof. by vm_compute. Qed.

Example stage_two_cookies :
  let res := fresh_response in
  let '(ctx, r1) := set_cookie "a" "1" empty_context in
  let ctx := through r1 [CallSecure] ctx in
  let '(ctx, r2) := set_cookie "b" "2" ctx in
  let ctx := through r2 [CallMaxAge 60; CallPath "/"] ctx in
  after_handle sample_date FacetFresh res ctx
  = Ret ({| code := 200;
            res_headers := [("Set-Cookie", "a=1; Secure");
                            ("Set-Cookie", "b=2; Max-Age=60; Path=/")];
            completed_ := false |}, ctx, FacetFresh).
Proof. reflexivity. Qed.

Example two_cookie_headers :
  before_handle (ptime := unit) String.eqb
    {| headers := [("Cookie", "a=1"); ("Host", "h"); ("Cookie", "b=2")] |}
    fresh_response empty_context
  = Ret ({| code := 400; res_headers := []; completed_ := true |}, empty_context).
Proof. reflexivity. Qed.

(** ** The theorems at concrete inputs *)

Lemma after_handle_expires_twice_witness :
  after_handle sample_date FacetFresh fresh_response
    {| jar := ∅;
       cookies_to_add := [expires tt (new_cookie "a" "1");
                          expires tt (new_cookie "b" "2")] |}
  = Undefined.
Proof.
  apply (after_handle_expires_twice sample_date FacetFresh fresh_response
           {| jar := ∅;
              cookies_to_add := [expires tt (new_cookie "a" "1");
                                 expires tt (new_cookie "b" "2")] |}).
  left. vm_compute. lia.
Defined.

Lemma before_handle_by_count_witness :
  before_handle (ptime := unit) String.eqb {| headers := [("Host", "h")] |}
    fresh_response empty_context
  = Ret (fresh_response, empty_context)
  /\ (exists res',
        before_handle (ptime := unit) String.eqb
          {| headers := [("Cookie", "a=1"); ("Cookie", "b=2")] |}
          fresh_response empty_context
        = Ret (res', empty_context)
        /\ code res' = 400 /\ completed_ res' = true
        /\ res_headers res' = res_headers fresh_response)
  /\ (exists j,
        parse_cookies "a=1; b=2" ∅ = Ret j
        /\ before_handle (ptime := unit) String.eqb
             {| headers := [("Host", "h"); ("Cookie", "a=1; b=2")] |}
             fresh_response empty_context
           = Ret (fresh_response, with_jar j empty_context)).
Proof.
  split; [|split].
  - apply (proj1 (before_handle_by_count String.eqb
                    {| headers := [("Host", "h")] |}
                    fresh_response empty_context)).
    reflexivity.
  - apply (proj1 (proj2 (before_handle_by_count String.eqb
                    {| headers := [("Cookie", "a=1"); ("Cookie", "b=2")] |}
                    fresh_response empty_context))).
    vm_compute. discriminate.
  - apply (proj2 (proj2 (before_handle_by_count String.eqb
                    {| headers := [("Host", "h"); ("Cookie", "a=1; b=2")] |}
                    fresh_response (empty_context (ptime := unit))))).
    + reflexivity.
    + vm_compute. reflexivity.
Defined.

Lemma parse_plain_pair_witness :
  parse_cookies "session=abc123" ∅ = Ret {[ "session" := "abc123" ]}.
Proof.
  apply (proj1 (parse_plain_pair "session" "abc123"
                  ltac:(repeat split; reflexivity)
                  ltac:(repeat split; reflexivity)
                  ltac:(discriminate)
                  ltac:(vm_compute; reflexivity))).
Defined.

(** C3 as stated fails on the empty value: the loop stops at the end of
    the input, before any insertion. *)
Lemma parse_plain_pair_empty_value :
  plain "a" /\ plain EmptyString
  /\ parse_cookies ("a" +:+ "=" +:+ EmptyString) ∅ = Ret ∅
  /\ parse_cookies ("a" +:+ "=" +:+ EmptyString) ∅
     <> Ret {[ "a" := EmptyString ]}.
Proof.
  split; [by repeat split|]. split; [by repeat split|].
  split; [by vm_compute|].
  intros H. vm_compute in H. discriminate H.
Qed.

Lemma empty_value_accepted_witness :
  exists st, parse_pair "a=;b=c" 0 ∅ = Ret st
             /\ jar_of st = emplace (trim "a") EmptyString ∅
             /\ jar_of st !! trim "a"
                = Some (default EmptyString ((∅ : gmap string string) !! trim "a")).
Proof.
  apply (empty_value_accepted "a=;b=c" 0 ∅ "a" 2 EmptyString
           ltac:(vm_compute; reflexivity)
           ltac:(lia)
           ltac:(vm_compute; discriminate)
           ltac:(vm_compute; reflexivity)
           ltac:(vm_compute; reflexivity)
           ltac:(vm_compute; discriminate)
           ltac:(vm_compute; reflexivity)
           ltac:(reflexivity)).
Defined.

Lemma first_write_wins_witness :
  exists jar',
    cookie_loop (String.length "dup=1; dup=2") "dup=1; dup=2" 7
                (emplace "dup" "1" ∅) = Ret jar'
    /\ jar' !! "dup" = Some (default "1" ((∅ : gmap string string) !! "dup")).
Proof.
  apply (proj1 (first_write_wins "dup=1; dup=2" 7 ∅ "dup" "1"
                  ltac:(vm_compute; reflexivity) ltac:(lia))).
Defined.

Lemma parser_terminates_witness :
  exists jar', parse_cookies "a=1; b=2; c" ∅ = Ret jar'.
Proof.
  apply (proj2 (proj2 (proj2 (parser_terminates "a=1; b=2; c" ∅
                                ltac:(vm_compute; reflexivity))))).
Defined.

Lemma format_parse_roundtrip_witness :
  (exists text,
     format sample_date FacetFresh (new_cookie "k" EmptyString)
     = Ret (text, FacetFresh)
     /\ (size text < npos -> parse_cookies text ∅ = Ret {[ "k" := EmptyString ]}))
  /\ (exists text,
        format sample_date FacetFreed (new_cookie "k" "a=b c")
        = Ret (text, FacetFreed)
        /\ (size text < npos -> parse_cookies text ∅ = Ret {[ "k" := "a=b c" ]})).
Proof.
  split.
  - apply (format_parse_roundtrip sample_date "k" EmptyString FacetFresh
             ltac:(reflexivity) ltac:(reflexivity) ltac:(left; reflexivity)).
  - apply (format_parse_roundtrip sample_date "k" "a=b c" FacetFreed
             ltac:(reflexivity) ltac:(reflexivity)
             ltac:(right; repeat split; reflexivity)).
Defined.

(** C9 as stated fails on a value that holds a semicolon: the parser cuts
    the value there. *)
Lemma format_parse_roundtrip_semicolon :
  format sample_date FacetFresh (new_cookie "k" "a;b")
  = Ret ("k=a;b", FacetFresh)
  /\ size "k=a;b" < npos
  /\ parse_cookies "k=a;b" ∅ = Ret {[ "k" := "a" ]}
  /\ forall jar, parse_cookies "k=a;b" ∅ = Ret jar -> jar !! "k" <> Some "a;b".
Proof.
  assert (parse_cookies "k=a;b" ∅ = Ret {[ "k" := "a" ]}) as E
    by (by vm_compute).
  split; [done|]. split; [by vm_compute|]. split; [done|].
  intros jar. rewrite E. intros [= <-]. vm_compute. discriminate.
Qed.

(** * Further properties *)

(** ** More facts on strings and on one iteration *)

(** Strings built with [+:+], in right-nested form. *)
Ltac str_norm :=
  repeat (rewrite str_app_assoc || rewrite str_app_cons
          || rewrite str_app_empty_l).

Section HeaderFacts.

Implicit Types (s t p cookies prefix tail name value : string)
  (c a : ascii) (jar : gmap string string).

Lemma size_blanks k : size (blanks k) = Z.of_nat k.
Proof. unfold size. induction k as [|k IH]; simpl; lia. Qed.

Lemma drop_split p s : drop (Z.to_nat (size p)) (p +:+ s) = s.
Proof. unfold size. by rewrite Nat2Z.id, str_drop_app_length. Qed.

Lemma take_split s t : take (Z.to_nat (size s)) (s +:+ t) = s.
Proof. unfold size. by rewrite Nat2Z.id, str_take_app_length. Qed.

Lemma drop_app_ge p s n :
  (String.length p <= n)%nat -> drop n (p +:+ s) = drop (n - String.length p) s.
Proof.
  revert n. induction p as [|b p IH]; intros n Hn; simpl in *.
  - rewrite str_app_empty_l. f_equal. lia.
  - destruct n as [|n]; [lia|]. rewrite str_app_cons. simpl. apply IH. lia.
Qed.

Lemma contains_drop c s n : contains c s = false -> contains c (drop n s) = false.
Proof.
  revert n. induction s as [|b s IH]; intros n H; [by destruct n|].
  destruct n as [|n]; [done|]. simpl.
  apply contains_head_false in H as [_ H]. by apply IH.
Qed.

Lemma contains_take c s n : contains c s = false -> contains c (take n s) = false.
Proof.
  revert n. induction s as [|b s IH]; intros n H; [by destruct n|].
  destruct n as [|n]; [done|]. simpl.
  apply contains_head_false in H as [Hb H]. rewrite contains_cons, Hb. simpl.
  by apply IH.
Qed.

Lemma contains_app c s t :
  contains c (s +:+ t) = (contains c s || contains c t)%bool.
Proof.
  induction s as [|b s IH]; [done|].
  rewrite str_app_cons, !contains_cons, IH. by rewrite orb_assoc.
Qed.

Lemma find_split p s c t :
  contains c s = false ->
  find (p +:+ s +:+ String c t) c (size p) = size p + size s.
Proof.
  intros H. unfold find. rewrite drop_split, index_of_app by done.
  rewrite index_of_head. simpl. unfold size. lia.
Qed.

Lemma find_none_from cookies c pos :
  contains c (drop (Z.to_nat pos) cookies) = false -> find cookies c pos = npos.
Proof. intros H. unfold find. by rewrite contains_false_index. Qed.

Lemma blanks_from_blanks k t pos :
  t = EmptyString \/ Ascii.eqb (first_char t) " " = false ->
  blanks_from (blanks k +:+ t) pos = pos + Z.of_nat k.
Proof.
  intros Ht. revert pos. induction k as [|k IH]; intros pos; simpl.
  - rewrite str_app_empty_l. destruct Ht as [->|Ht]; [simpl; lia|].
    destruct t as [|b t]; simpl in *; [lia|]. rewrite Ht. lia.
  - rewrite IH. lia.
Qed.

Lemma blanks_end_blanks p k t :
  t = EmptyString \/ Ascii.eqb (first_char t) " " = false ->
  blanks_end (p +:+ blanks k +:+ t) (size p) = size p + Z.of_nat k.
Proof. intros Ht. unfold blanks_end. rewrite drop_split. by apply blanks_from_blanks. Qed.

Lemma emplace_union name value jar (m : gmap string string) :
  emplace name value jar ∪ m = jar ∪ <[name := value]> m.
Proof.
  apply map_eq. intros k. unfold emplace.
  destruct (jar !! name) as [v0|] eqn:E.
  - rewrite !lookup_union. destruct (decide (k = name)) as [->|Hne].
    + rewrite E, lookup_insert_eq. by destruct (m !! name).
    + by rewrite lookup_insert_ne.
  - rewrite !lookup_union. destruct (decide (k = name)) as [->|Hne].
    + rewrite E, !lookup_insert_eq. by destruct (m !! name).
    + by rewrite !lookup_insert_ne.
Qed.

Lemma emplace_union_single name value jar :
  emplace name value jar = jar ∪ {[ name := value ]}.
Proof.
  rewrite <- (right_id_L ∅ (∪) (emplace name value jar)).
  rewrite emplace_union. by rewrite insert_empty.
Qed.

(** No [=] at or after [pos]: the loop leaves the jar as it is. *)
Lemma cookie_loop_no_equal fuel cookies pos jar :
  contains "=" (drop (Z.to_nat pos) cookies) = false ->
  (1 <= fuel)%nat ->
  cookie_loop fuel cookies pos jar = Ret jar.
Proof.
  intros H Hfuel. destruct fuel as [|fuel]; [lia|]. simpl.
  destruct (pos <? size cookies); [|done].
  unfold parse_pair. cbv zeta. by rewrite find_none_from.
Qed.

End HeaderFacts.

Section PairAt.

Implicit Types (s t p cookies prefix tail name value : string)
  (c a : ascii) (jar : gmap string string).

(** One iteration at the start of a pair [name=value] that sits after
    [prefix], with [b] blanks behind [=], where the value does not start
    with a blank and runs to the end of the header or to a semicolon. *)
Lemma parse_pair_at cookies prefix name b a w tail jar :
  cookies = prefix +:+ name +:+ "=" +:+ blanks b +:+ String a w +:+ tail ->
  size cookies < npos ->
  contains "=" name = false ->
  Ascii.eqb a " " = false ->
  contains ";" (String a w) = false ->
  tail = EmptyString \/ (exists tail', tail = String ";" tail') ->
  parse_pair cookies (size prefix) jar
  = value ← unquote (trim (String a w));
    Ret (if empty tail
         then Break (emplace (trim name) value jar)
         else Continue
                (blanks_end cookies
                   (size prefix + size name + 1 + Z.of_nat b
                    + size (String a w) + 1))
                (emplace (trim name) value jar)).
Proof.
  intros Hc Hsz Hname Ha Hw Htail.
  pose proof (size_nonneg prefix). pose proof (size_nonneg name).
  pose proof (size_nonneg w). pose proof (size_nonneg tail).
  assert (size cookies
          = size prefix + size name + 1 + Z.of_nat b + (1 + size w)
            + size tail) as Hsize.
  { rewrite Hc, !size_app, (size_cons a w), size_blanks.
    change (size "=") with 1. lia. }
  assert (cookies
          = prefix +:+ name
            +:+ String "="%char (blanks b +:+ String a w +:+ tail)) as C1.
  { by rewrite Hc. }
  assert (cookies
          = (prefix +:+ name +:+ "=") +:+ blanks b +:+ String a (w +:+ tail))
    as C2.
  { rewrite Hc, !str_app_assoc. reflexivity. }
  assert (cookies
          = ((prefix +:+ name +:+ "=") +:+ blanks b) +:+ String a (w +:+ tail))
    as C3.
  { rewrite C2, !str_app_assoc. reflexivity. }
  assert (size (prefix +:+ name +:+ "=") = size prefix + size name + 1) as S2.
  { rewrite !size_app. change (size "=") with 1. lia. }
  rewrite parse_pair_unfold by lia. cbv zeta.
  assert (find cookies "=" (size prefix) = size prefix + size name) as ->.
  { rewrite C1. by apply find_split. }
  destruct (Z.eqb_spec (size prefix + size name) npos); [lia|].
  assert (take (Z.to_nat (size prefix + size name - size prefix))
               (drop (Z.to_nat (size prefix)) cookies) = name) as ->.
  { rewrite C1 at 1. rewrite drop_split.
    replace (size prefix + size name - size prefix) with (size name) by lia.
    apply take_split. }
  set (start := size prefix + size name + 1 + Z.of_nat b) in *.
  assert (size ((prefix +:+ name +:+ "=") +:+ blanks b) = start) as S3.
  { unfold start. by rewrite size_app, S2, size_blanks. }
  assert (blanks_end cookies (size prefix + size name + 1) = start) as ->.
  { rewrite C2, <- S2. unfold start. rewrite <- S2.
    apply blanks_end_blanks. right. simpl. done. }
  destruct (Z.eqb_spec start (size cookies)); [lia|].
  assert (drop (Z.to_nat start) cookies = String a w +:+ tail) as D.
  { rewrite C3 at 1. rewrite <- S3. apply drop_split. }
  destruct Htail as [->|[tail' ->]].
  - rewrite str_app_empty_r in D.
    rewrite find_none_from by (by rewrite D).
    simpl. rewrite D. by destruct (unquote _).
  - assert (find cookies ";" start = start + size (String a w)) as ->.
    { unfold find. rewrite D, index_of_app by done.
      rewrite index_of_head. simpl. unfold size. simpl. lia. }
    rewrite size_cons.
    destruct (Z.eqb_spec (start + (1 + size w)) npos); [rewrite size_cons in *; lia|].
    replace (start + (1 + size w) - start) with (size (String a w))
      by (rewrite size_cons; lia).
    rewrite D, take_split. simpl. by destruct (unquote _).
Qed.

Lemma wire_value_head value :
  wire_value value ->
  exists a w, value = String a w /\ Ascii.eqb a " " = false.
Proof.
  intros (Hne & _ & Ht & _). destruct value as [|a w]; [done|].
  exists a, w. split; [done|].
  apply not_space_not_blank. by apply trim_fixed_head in Ht.
Qed.

Lemma wire_value_unquote value :
  wire_value value -> size value <= npos -> unquote (trim value) = Ret value.
Proof.
  intros (_ & _ & Ht & Hq) Hsz. rewrite Ht, unquote_spec by done. by rewrite Hq.
Qed.

(** The text of a well-formed name followed by [=] does not start with a
    blank. *)
Lemma wire_name_head name t :
  wire_name name -> Ascii.eqb (first_char (name +:+ String "="%char t)) " " = false.
Proof.
  intros [_ Ht]. destruct name as [|b name]; [done|].
  rewrite str_app_cons. simpl. apply not_space_not_blank.
  by apply trim_fixed_head in Ht.
Qed.

End PairAt.

Section WholeHeader.

Implicit Types (s t p cookies prefix tail name value : string)
  (c a : ascii) (jar : gmap string string) (pairs : list (string * string)).

Lemma cookie_header_cons k name value pairs :
  cookie_header k ((name, value) :: pairs)
  = name +:+ "=" +:+ value
    +:+ match pairs with
        | [] => EmptyString
        | _ :: _ => String ";" (blanks k +:+ cookie_header k pairs)
        end.
Proof. simpl. by rewrite !str_app_assoc. Qed.

Lemma size_cookie_header_cons k name value pairs :
  size (cookie_header k ((name, value) :: pairs))
  = size name + 1 + size value
    + match pairs with
      | [] => 0
      | _ :: _ => 1 + Z.of_nat k + size (cookie_header k pairs)
      end.
Proof.
  rewrite cookie_header_cons, !size_app. change (size "=") with 1.
  destruct pairs as [|p2 rest].
  - change (size EmptyString) with 0. lia.
  - rewrite size_cons, size_app, size_blanks. lia.
Qed.

(** The loop run over the pairs of a well-formed header that sits after
    [prefix]: one iteration per pair; it returns at the end of the header,
    and goes on behind a semicolon that follows the last pair. *)
Lemma cookie_loop_header k pairs :
  forall pair prefix tail jar fuel cookies,
  cookies = prefix +:+ cookie_header k (pair :: pairs) +:+ tail ->
  size cookies < npos ->
  Forall wire_pair (pair :: pairs) ->
  tail = EmptyString \/ (exists tail', tail = String ";" tail') ->
  cookie_loop (S (length pairs) + fuel) cookies (size prefix) jar
  = if empty tail then Ret (jar ∪ list_to_map (pair :: pairs))
    else cookie_loop fuel cookies
           (blanks_end cookies
              (size prefix + size (cookie_header k (pair :: pairs)) + 1))
           (jar ∪ list_to_map (pair :: pairs)).
Proof.
  induction pairs as [|[n2 v2] rest IH];
    intros [n v] prefix tail jar fuel cookies Hc Hsz Hok Htail.
  - apply Forall_cons in Hok as [[Hn Hv] _]. simpl in Hn, Hv.
    destruct (wire_value_head v Hv) as (a & w & -> & Ha).
    destruct Hn as [Hneq Hnt]. pose proof Hv as (_ & Hsemi & _ & _).
    rewrite size_cookie_header_cons.
    rewrite cookie_header_cons in Hc.
    assert (cookies
            = prefix +:+ n +:+ "=" +:+ blanks 0 +:+ String a w +:+ tail) as Hc'.
    { rewrite Hc. str_norm. reflexivity. }
    pose proof (size_nonneg prefix). pose proof (size_nonneg n).
    pose proof (size_nonneg w). pose proof (size_nonneg tail).
    assert (size cookies
            = size prefix + size n + 1 + (1 + size w) + size tail) as Hsize.
    { rewrite Hc', !size_app, (size_cons a w), size_blanks.
      change (size "=") with 1. lia. }
    simpl. destruct (Z.ltb_spec (size prefix) (size cookies)); [|lia].
    rewrite (parse_pair_at cookies prefix n 0 a w tail jar) by done.
    rewrite wire_value_unquote; [|done|rewrite size_cons; lia].
    rewrite Hnt. simpl.
    rewrite <- emplace_union, (right_id_L ∅ (∪)).
    destruct Htail as [->|[tail' ->]]; simpl; [done|].
    do 2 f_equal. lia.
  - apply Forall_cons in Hok as [[Hn Hv] Hrest]. simpl in Hn, Hv.
    destruct (wire_value_head v Hv) as (a & w & -> & Ha).
    destruct Hn as [Hneq Hnt]. pose proof Hv as (_ & Hsemi & _ & _).
    rewrite (size_cookie_header_cons k n).
    rewrite cookie_header_cons in Hc.
    set (tail0 := String ";" (blanks k +:+ cookie_header k ((n2, v2) :: rest)
                              +:+ tail)).
    assert (cookies
            = prefix +:+ n +:+ "=" +:+ blanks 0 +:+ String a w +:+ tail0)
      as Hc'.
    { rewrite Hc. unfold tail0. str_norm. reflexivity. }
    pose proof (size_nonneg prefix). pose proof (size_nonneg n).
    pose proof (size_nonneg w). pose proof (size_nonneg tail0).
    assert (size cookies
            = size prefix + size n + 1 + (1 + size w) + size tail0) as Hsize.
    { rewrite Hc', !size_app, (size_cons a w), size_blanks.
      change (size "=") with 1. lia. }
    change (S (length ((n2, v2) :: rest)) + fuel)%nat
      with (S (S (length rest) + fuel)).
    remember (S (length rest) + fuel)%nat as fuel' eqn:Hfuel'.
    simpl cookie_loop.
    destruct (Z.ltb_spec (size prefix) (size cookies)); [|lia].
    rewrite (parse_pair_at cookies prefix n 0 a w tail0 jar);
      [|done..|right; by eexists].
    rewrite wire_value_unquote; [|done|rewrite size_cons; lia].
    rewrite Hnt. unfold tail0 at 1. cbn [mbind result_bind empty].
    set (q := size prefix + size n + 1 + Z.of_nat 0 + size (String a w) + 1).
    assert (size (prefix +:+ n +:+ "=" +:+ String a w +:+ ";") = q) as Sq.
    { unfold q. rewrite !size_app. change (size "=") with 1.
      change (size ";") with 1. lia. }
    set (prefix' := (prefix +:+ n +:+ "=" +:+ String a w +:+ ";")
                    +:+ blanks k).
    assert (cookies
            = prefix' +:+ cookie_header k ((n2, v2) :: rest) +:+ tail) as Hq.
    { rewrite Hc'. unfold prefix', tail0. str_norm. reflexivity. }
    assert (size prefix' = q + Z.of_nat k) as Sp.
    { unfold prefix'. by rewrite size_app, Sq, size_blanks. }
    assert (blanks_end cookies q = size prefix') as ->.
    { rewrite Sp, <- Sq. rewrite Hq at 1. unfold prefix'.
      rewrite str_app_assoc. apply blanks_end_blanks. right.
      rewrite cookie_header_cons, str_app_assoc.
      apply Forall_cons in Hrest as [[Hn2 _] _].
      by apply wire_name_head. }
    subst fuel'.
    rewrite (IH (n2, v2) prefix' tail (emplace n (String a w) jar) fuel
               cookies Hq); [|done..].
    rewrite emplace_union.
    change (list_to_map ((n, String a w) :: (n2, v2) :: rest))
      with (<[n := String a w]>
              (list_to_map ((n2, v2) :: rest) : gmap string string)).
    destruct (empty tail); [done|].
    do 2 f_equal.
    change ((n2 +:+ "=" +:+ v2)
            +:+ match rest with
                | [] => EmptyString
                | _ :: _ => ";" +:+ blanks k +:+ cookie_header k rest
                end)
      with (cookie_header k ((n2, v2) :: rest)).
    rewrite Sp. unfold q. lia.
Qed.

End WholeHeader.

Section HeaderTheorems.

Implicit Types (s t p cookies prefix tail name value junk : string)
  (c a : ascii) (jar : gmap string string) (pairs : list (string * string)).

(** A result of the loop from position 0, with any amount of fuel, is the
    result of [parse_cookies]. *)
Lemma parse_cookies_by_fuel fuel cookies jar jar' :
  size cookies < npos ->
  cookie_loop fuel cookies 0 jar = Ret jar' ->
  parse_cookies cookies jar = Ret jar'.
Proof.
  intros Hsz Hloop. destruct (parse_cookies_total cookies jar Hsz) as [j Hj].
  rewrite Hj. unfold parse_cookies in Hj.
  apply (cookie_loop_fuel _ (fuel + String.length cookies)) in Hloop; [|lia].
  apply (cookie_loop_fuel _ (fuel + String.length cookies)) in Hj; [|lia].
  congruence.
Qed.

Lemma drop_app_le s t n :
  (n <= String.length s)%nat -> drop n (s +:+ t) = drop n s +:+ t.
Proof.
  revert n. induction s as [|b s IH]; intros n Hn; simpl in *.
  - by replace n with O by lia.
  - destruct n as [|n]; [done|]. rewrite str_app_cons. simpl. apply IH. lia.
Qed.

Lemma blanks_from_le s c t pos :
  Ascii.eqb c " " = false ->
  blanks_from (s +:+ String c t) pos <= pos + size s.
Proof.
  intros Hc. revert pos. induction s as [|b s IH]; intros pos.
  - rewrite str_app_empty_l. simpl. rewrite Hc. change (size EmptyString) with 0. lia.
  - rewrite str_app_cons, size_cons. simpl. pose proof (size_nonneg s).
    destruct (Ascii.eqb b " "); [|lia]. specialize (IH (pos + 1)). lia.
Qed.

(** A last pair with nothing after [=] but blanks: the loop, started at or
    inside the name, returns the jar as it is. *)
Lemma cookie_loop_incomplete fuel cookies prefix name j pos jar :
  cookies = prefix +:+ name +:+ "=" +:+ blanks j ->
  size cookies < npos ->
  contains "=" name = false ->
  size prefix <= pos <= size prefix + size name ->
  (1 <= fuel)%nat ->
  cookie_loop fuel cookies pos jar = Ret jar.
Proof.
  intros Hc Hsz Hname Hpos Hfuel.
  pose proof (size_nonneg prefix). pose proof (size_nonneg name).
  assert (size cookies = size prefix + size name + 1 + Z.of_nat j) as Hsize.
  { rewrite Hc, !size_app, size_blanks. change (size "=") with 1. lia. }
  destruct fuel as [|fuel]; [lia|]. simpl.
  destruct (Z.ltb_spec pos (size cookies)); [|lia].
  rewrite parse_pair_unfold by lia. cbv zeta.
  assert (find cookies "=" pos = size prefix + size name) as ->.
  { unfold find.
    replace (Z.to_nat pos)
      with (String.length prefix + Z.to_nat (pos - size prefix))%nat
      by (unfold size in *; lia).
    rewrite Hc, <- str_drop_drop, str_drop_app_length.
    rewrite drop_app_le by (unfold size in *; lia).
    change ("=" +:+ blanks j) with (String "="%char (blanks j)).
    rewrite index_of_app by (by apply contains_drop).
    rewrite index_of_head. simpl. rewrite str_length_drop.
    unfold size in *. lia. }
  destruct (Z.eqb_spec (size prefix + size name) npos); [lia|].
  assert (blanks_end cookies (size prefix + size name + 1) = size cookies) as ->.
  { assert (cookies = (prefix +:+ name +:+ "=") +:+ blanks j +:+ EmptyString)
      as -> by (rewrite Hc; str_norm; by rewrite str_app_empty_r).
    assert (size (prefix +:+ name +:+ "=") = size prefix + size name + 1) as <-.
    { rewrite !size_app. change (size "=") with 1. lia. }
    rewrite blanks_end_blanks by (by left).
    rewrite (size_app _ (blanks j +:+ EmptyString)), str_app_empty_r, size_blanks.
    done. }
  by rewrite Z.eqb_refl.
Qed.

Lemma parse_cookies_header k pairs jar :
  Forall wire_pair pairs ->
  size (cookie_header k pairs) < npos ->
  parse_cookies (cookie_header k pairs) jar = Ret (jar ∪ list_to_map pairs).
Proof.
  intros Hok Hsz. destruct pairs as [|pair rest].
  - rewrite list_to_map_nil, (right_id_L ∅ (∪)). reflexivity.
  - apply (parse_cookies_by_fuel (S (length rest) + 0)); [done|].
    change 0 with (size EmptyString).
    rewrite (cookie_loop_header k rest pair EmptyString EmptyString jar 0%nat);
      try done; [|by left].
    by rewrite str_app_empty_l, str_app_empty_r.
Qed.

(** X1: a header of well-formed pairs [name=value], separated by a
    semicolon and any fixed number of blanks, parses to the jar extended
    with every pair, an earlier pair and any entry already in the jar
    winning over a later pair of the same name. *)
Theorem parse_cookie_header k pairs jar :
  Forall wire_pair pairs ->
  size (cookie_header k pairs) < npos ->
  parse_cookies (cookie_header k pairs) jar = Ret (jar ∪ list_to_map pairs).
Proof. apply parse_cookies_header. Qed.

Lemma parse_cookies_no_equal cookies jar :
  contains "=" cookies = false -> parse_cookies cookies jar = Ret jar.
Proof.
  intros H. unfold parse_cookies. destruct cookies as [|a r]; [done|].
  apply cookie_loop_no_equal; [done|simpl; lia].
Qed.

(** X2: a header without any [=] leaves the jar as it is (the empty header
    included), whatever else it holds. *)
Theorem parse_no_equal cookies jar :
  contains "=" cookies = false -> parse_cookies cookies jar = Ret jar.
Proof. apply parse_cookies_no_equal. Qed.

(** X3: text without [=] behind the last pair and its semicolon is
    dropped: the jar is that of the pairs alone. *)
Theorem parse_trailing_fragment k pairs junk jar :
  Forall wire_pair pairs ->
  contains "=" junk = false ->
  size (cookie_header k pairs +:+ ";" +:+ junk) < npos ->
  parse_cookies (cookie_header k pairs +:+ ";" +:+ junk) jar
  = Ret (jar ∪ list_to_map pairs).
Proof.
  intros Hok Hjunk Hsz. destruct pairs as [|pair rest].
  - rewrite list_to_map_nil, (right_id_L ∅ (∪)).
    apply parse_cookies_no_equal. simpl cookie_header.
    rewrite str_app_empty_l. change (";" +:+ junk) with (String ";" junk).
    by rewrite contains_cons, Hjunk.
  - set (cookies := cookie_header k (pair :: rest) +:+ ";" +:+ junk) in *.
    apply (parse_cookies_by_fuel (S (length rest) + 1)); [done|].
    change 0 with (size EmptyString).
    rewrite (cookie_loop_header k rest pair EmptyString (String ";" junk) jar
               1%nat);
      try done; [|right; by eexists].
    cbn [empty]. apply cookie_loop_no_equal; [|lia].
    change (size EmptyString) with 0.
    assert (cookies = (cookie_header k (pair :: rest) +:+ ";") +:+ junk) as Hq.
    { unfold cookies. by rewrite str_app_assoc. }
    assert (size (cookie_header k (pair :: rest) +:+ ";")
            = 0 + size (cookie_header k (pair :: rest)) + 1) as Sq.
    { rewrite size_app. change (size ";") with 1. lia. }
    pose proof (blanks_end_range cookies
                  (0 + size (cookie_header k (pair :: rest)) + 1)) as R.
    pose proof (size_nonneg (cookie_header k (pair :: rest))).
    pose proof (size_nonneg junk).
    assert (size cookies
            = size (cookie_header k (pair :: rest)) + 1 + size junk) as Hsize.
    { rewrite Hq, size_app, Sq. lia. }
    set (p := blanks_end cookies _) in *.
    rewrite Hq, drop_app_ge.
    + by apply contains_drop.
    + unfold size in *. lia.
Qed.

(** X4: a last pair that ends at [=], or at blanks behind it, is dropped,
    not stored with an empty value. *)
Theorem parse_incomplete_pair k pairs name j jar :
  Forall wire_pair pairs ->
  contains "=" name = false ->
  size (cookie_header k pairs +:+ ";" +:+ name +:+ "=" +:+ blanks j) < npos ->
  parse_cookies (cookie_header k pairs +:+ ";" +:+ name +:+ "=" +:+ blanks j)
                jar
  = Ret (jar ∪ list_to_map pairs).
Proof.
  intros Hok Hname Hsz. destruct pairs as [|pair rest].
  - rewrite list_to_map_nil, (right_id_L ∅ (∪)).
    simpl cookie_header in *. rewrite str_app_empty_l in *.
    set (cookies := ";" +:+ name +:+ "=" +:+ blanks j) in *.
    apply (parse_cookies_by_fuel 1); [done|].
    apply (cookie_loop_incomplete 1 cookies EmptyString (String ";" name) j);
      [done|done| | |lia].
    + by rewrite contains_cons, Hname.
    + change (size EmptyString) with 0.
      pose proof (size_nonneg (String ";" name)). lia.
  - set (header := cookie_header k (pair :: rest)) in *.
    set (cookies := header +:+ ";" +:+ name +:+ "=" +:+ blanks j) in *.
    apply (parse_cookies_by_fuel (S (length rest) + 1)); [done|].
    change 0 with (size EmptyString).
    rewrite (cookie_loop_header k rest pair EmptyString
               (String ";" (name +:+ "=" +:+ blanks j)) jar 1%nat);
      try done; [|right; by eexists].
    cbn [empty]. fold header. change (size EmptyString) with 0.
    assert (size (header +:+ ";") = 0 + size header + 1) as Sq.
    { rewrite size_app. change (size ";") with 1. lia. }
    pose proof (size_nonneg header). pose proof (size_nonneg name).
    assert (size cookies = size header + 1 + size name + 1 + Z.of_nat j)
      as Hsize.
    { unfold cookies. rewrite !size_app, size_blanks.
      change (size ";") with 1. change (size "=") with 1. lia. }
    apply (cookie_loop_incomplete 1 cookies (header +:+ ";") name j);
      [ |done|done| |lia].
    + unfold cookies. by rewrite !str_app_assoc.
    + rewrite Sq. split.
      * apply blanks_end_range. lia.
      * unfold blanks_end. rewrite <- Sq.
        assert (cookies
                = (header +:+ ";") +:+ name +:+ String "="%char (blanks j))
          as -> by (unfold cookies; by rewrite !str_app_assoc).
        rewrite drop_split. by apply blanks_from_le.
Qed.

End HeaderTheorems.

Section OnePair.

Implicit Types (s t l r cookies name value inner : string)
  (c a : ascii) (jar : gmap string string).

(** A header made of one pair, with blanks behind [=]. *)
Lemma parse_one name b a w jar :
  contains "=" name = false ->
  Ascii.eqb a " " = false ->
  contains ";" (String a w) = false ->
  size (name +:+ "=" +:+ blanks b +:+ String a w) < npos ->
  parse_cookies (name +:+ "=" +:+ blanks b +:+ String a w) jar
  = value ← unquote (trim (String a w));
    Ret (emplace (trim name) value jar).
Proof.
  intros Hname Ha Hw Hsz.
  set (cookies := name +:+ "=" +:+ blanks b +:+ String a w) in *.
  destruct (unquote_total (trim (String a w))) as [v Hv]. rewrite Hv. simpl.
  apply (parse_cookies_by_fuel 1); [done|]. simpl.
  assert (0 < size cookies) as Hpos.
  { unfold cookies. rewrite !size_app, (size_cons a w).
    pose proof (size_nonneg name). pose proof (size_nonneg (blanks b)).
    pose proof (size_nonneg w). change (size "=") with 1. lia. }
  destruct (Z.ltb_spec 0 (size cookies)); [|lia].
  change 0 with (size EmptyString).
  rewrite (parse_pair_at cookies EmptyString name b a w EmptyString jar);
    try done.
  - by rewrite Hv.
  - unfold cookies. by rewrite str_app_empty_l, str_app_empty_r.
  - by left.
Qed.

Lemma all_space_contains c r :
  all_space r = true -> is_space c = false -> contains c r = false.
Proof.
  intros Hr Hc. induction r as [|b r IH]; [done|]. simpl in Hr.
  apply andb_true_iff in Hr as [Hb Hr]. rewrite contains_cons, IH by done.
  destruct (Ascii.eqb_spec b c) as [->|]; [congruence|done].
Qed.

Lemma trim_right_all_space r : all_space r = true -> trim_right r = EmptyString.
Proof.
  induction r as [|b r IH]; [done|]. simpl. intros [Hb Hr]%andb_true_iff.
  by rewrite IH, Hb.
Qed.

Lemma trim_right_app_space s r :
  all_space r = true -> trim_right (s +:+ r) = trim_right s.
Proof.
  intros Hr. induction s as [|b s IH].
  - rewrite str_app_empty_l. by apply trim_right_all_space.
  - rewrite str_app_cons. simpl. by rewrite IH.
Qed.

Lemma trim_right_space_app l s :
  all_space l = true ->
  trim_right (l +:+ s)
  = if empty (trim_right s) then EmptyString else l +:+ trim_right s.
Proof.
  intros Hl. induction l as [|b l IH].
  - rewrite !str_app_empty_l. by destruct (trim_right s).
  - simpl in Hl. apply andb_true_iff in Hl as [Hb Hl].
    rewrite str_app_cons. simpl. rewrite IH by done.
    destruct (trim_right s) as [|x y] eqn:E; simpl.
    + by rewrite Hb.
    + by destruct l.
Qed.

Lemma trim_left_space_app l s :
  all_space l = true -> trim_left (l +:+ s) = trim_left s.
Proof.
  intros Hl. induction l as [|b l IH]; [done|].
  simpl in Hl. apply andb_true_iff in Hl as [Hb Hl].
  rewrite str_app_cons. simpl. rewrite Hb. by apply IH.
Qed.

(** White space on either side does not change what [trim] returns. *)
Lemma trim_pad l s r :
  all_space l = true -> all_space r = true -> trim (l +:+ s +:+ r) = trim s.
Proof.
  intros Hl Hr. unfold trim.
  rewrite trim_right_space_app, trim_right_app_space by done.
  destruct (trim_right s) as [|x y] eqn:E; [done|]. simpl.
  by rewrite trim_left_space_app.
Qed.

Lemma trim_right_id s :
  is_space (last_char s) = false -> trim_right s = s.
Proof.
  induction s as [|b s IH]; [done|]. intros H. simpl in *.
  destruct s as [|x y]; simpl in *; [by rewrite H|].
  rewrite IH by done. done.
Qed.

Lemma last_char_snoc a s c : last_char (String a (s +:+ String c EmptyString)) = c.
Proof.
  revert a. induction s as [|b s IH]; intros a; [done|].
  rewrite str_app_cons. change (last_char (String a (String b ?r)))
    with (last_char (String b r)). apply IH.
Qed.

(** X5: a value between double quotes is stored without them and
    otherwise unchanged, blanks at its ends included; only a semicolon
    inside the quotes is not allowed for. *)
Theorem parse_quoted_pair name b inner jar :
  contains "=" name = false ->
  contains ";" inner = false ->
  size (name +:+ "=" +:+ blanks b
        +:+ String DQUOTE (inner +:+ String DQUOTE EmptyString)) < npos ->
  parse_cookies (name +:+ "=" +:+ blanks b
                 +:+ String DQUOTE (inner +:+ String DQUOTE EmptyString)) jar
  = Ret (emplace (trim name) inner jar).
Proof.
  intros Hname Hinner Hsz.
  set (value := String DQUOTE (inner +:+ String DQUOTE EmptyString)) in *.
  assert (size value <= npos) as Hv.
  { rewrite !size_app in Hsz. pose proof (size_nonneg name).
    pose proof (size_nonneg (blanks b)). change (size "=") with 1 in Hsz. lia. }
  unfold value at 1. rewrite parse_one; [|done|done| |done]; fold value.
  - assert (trim value = value) as ->.
    { unfold trim. rewrite trim_right_id; [done|].
      unfold value. by rewrite last_char_snoc. }
    rewrite unquote_spec by done.
    assert (quote_ends value = true) as ->.
    { unfold quote_ends, value. by rewrite last_char_snoc. }
    simpl. do 2 f_equal. unfold middle, value. simpl.
    rewrite str_length_app. simpl.
    replace (String.length inner + 1 - 1)%nat with (String.length inner) by lia.
    apply str_take_app_length.
  - unfold value. rewrite contains_cons, contains_app, Hinner. done.
Qed.

(** X6: white space around the name, blanks behind [=] and white space
    behind the value are ignored. *)
Theorem parse_padded_pair l1 name r1 b value r2 jar :
  all_space l1 = true -> all_space r1 = true -> all_space r2 = true ->
  wire_name name -> wire_value value ->
  size (l1 +:+ name +:+ r1 +:+ "=" +:+ blanks b +:+ value +:+ r2) < npos ->
  parse_cookies (l1 +:+ name +:+ r1 +:+ "=" +:+ blanks b +:+ value +:+ r2) jar
  = Ret (emplace name value jar).
Proof.
  intros Hl1 Hr1 Hr2 [Hneq Hnt] Hv Hsz.
  destruct (wire_value_head value Hv) as (a & w & -> & Ha).
  destruct Hv as (_ & Hsemi & Hvt & Hq).
  assert (l1 +:+ name +:+ r1 +:+ "=" +:+ blanks b +:+ String a w +:+ r2
          = (l1 +:+ name +:+ r1) +:+ "=" +:+ blanks b +:+ String a (w +:+ r2))
    as E by (by rewrite !str_app_assoc).
  rewrite E in *.
  assert (size (String a w) <= npos) as Hsv.
  { rewrite !size_app, (size_cons a (w +:+ r2)), size_app in Hsz.
    rewrite size_cons.
    pose proof (size_nonneg l1). pose proof (size_nonneg name).
    pose proof (size_nonneg r1). pose proof (size_nonneg (blanks b)).
    pose proof (size_nonneg r2). change (size "=") with 1 in Hsz. lia. }
  rewrite parse_one; [|  |done| |done].
  - rewrite trim_pad, Hnt by done.
    change (String a (w +:+ r2)) with (EmptyString +:+ String a w +:+ r2).
    rewrite trim_pad, Hvt by done.
    rewrite unquote_spec, Hq by done. done.
  - rewrite !contains_app, Hneq.
    by rewrite !all_space_contains.
  - change (String a (w +:+ r2)) with (String a w +:+ r2).
    rewrite contains_app, Hsemi. by rewrite all_space_contains.
Qed.

End OnePair.

Section AnyHeader.

Implicit Types (s t cookies name value : string)
  (c a : ascii) (jar : gmap string string) (pairs : list (string * string)).

Lemma index_of_take c s i :
  index_of c s = Some i -> contains c (take i s) = false.
Proof.
  revert i. induction s as [|b s IH]; intros i; simpl; [done|].
  destruct (Ascii.eqb b c) eqn:E; [by intros [= <-]|].
  destruct (index_of c s) as [j|]; simpl; [|done]. intros [= <-]. simpl.
  rewrite contains_cons, E. simpl. by apply IH.
Qed.

Lemma contains_trim_left c s :
  contains c s = false -> contains c (trim_left s) = false.
Proof.
  induction s as [|b s IH]; [done|]. simpl. intros H.
  destruct (is_space b); [|done].
  apply contains_head_false in H as [_ H]. by apply IH.
Qed.

Lemma contains_trim_right c s :
  contains c s = false -> contains c (trim_right s) = false.
Proof.
  induction s as [|b s IH]; [done|]. simpl. intros H.
  apply contains_head_false in H as [Hb H].
  destruct (empty (trim_right s) && is_space b)%bool; [done|].
  rewrite contains_cons, Hb. simpl. by apply IH.
Qed.

Lemma contains_trim c s : contains c s = false -> contains c (trim s) = false.
Proof. intros H. unfold trim. by apply contains_trim_left, contains_trim_right. Qed.

Lemma trim_right_idem s : trim_right (trim_right s) = trim_right s.
Proof.
  induction s as [|b s IH]; [done|]. simpl.
  destruct (empty (trim_right s) && is_space b)%bool eqn:E; [done|].
  simpl. by rewrite IH, E.
Qed.

Lemma trim_right_trim_left s :
  trim_right s = s -> trim_right (trim_left s) = trim_left s.
Proof.
  induction s as [|b s IH]; [done|]. intros H. simpl in H.
  destruct (empty (trim_right s) && is_space b)%bool eqn:E; [done|].
  injection H as Hs. simpl trim_left.
  destruct (is_space b) eqn:Sb.
  - by apply IH.
  - simpl. by rewrite ?Sb, andb_false_r, Hs.
Qed.

Lemma trim_left_idem s : trim_left (trim_left s) = trim_left s.
Proof.
  induction s as [|b s IH]; [done|]. simpl.
  destruct (is_space b) eqn:Sb; [done|]. simpl. by rewrite Sb.
Qed.

(** [boost::trim] is idempotent. *)
Lemma trim_idem s : trim (trim s) = trim s.
Proof.
  unfold trim. rewrite trim_right_trim_left by apply trim_right_idem.
  apply trim_left_idem.
Qed.

(** Removing the quotes keeps a value free of any character it was free
    of. *)
Lemma unquote_contains c value v :
  unquote value = Ret v -> contains c value = false -> contains c v = false.
Proof.
  unfold unquote.
  destruct (is_quoted value) as [[|]| | |];
    cbn [mbind result_bind mret result_ret]; try done.
  - unfold substr. destruct (size value <? 1); [done|].
    intros [= <-] H. apply contains_take.
    exact (contains_drop c value 1 H).
  - by intros [= <-].
Qed.

Lemma find_take_contains cookies c pos :
  find cookies c pos <> npos ->
  contains c (take (Z.to_nat (find cookies c pos - pos))
                   (drop (Z.to_nat pos) cookies)) = false.
Proof.
  unfold find.
  destruct (index_of c (drop (Z.to_nat pos) cookies)) as [i|] eqn:I.
  - intros _. replace (Z.to_nat (pos + Z.of_nat i - pos)) with i by lia.
    by apply index_of_take.
  - intros H. exfalso. apply H. reflexivity.
Qed.

Lemma find_npos_contains cookies c pos :
  find cookies c pos = npos -> 0 <= pos -> size cookies < npos ->
  contains c (drop (Z.to_nat pos) cookies) = false.
Proof.
  unfold find, contains.
  destruct (index_of c (drop (Z.to_nat pos) cookies)) as [i|] eqn:I;
    [|intros; reflexivity].
  intros H Hpos Hsz. exfalso. apply index_of_lt in I.
  rewrite str_length_drop in I. unfold size in Hsz. lia.
Qed.

(** What an iteration does does not depend on the jar: it stops, or it
    stores one pair and stops, or it stores one pair and goes on further
    to the right. *)
Lemma parse_pair_shape cookies pos :
  size cookies < npos -> 0 <= pos < size cookies ->
  (forall jar, parse_pair cookies pos jar = Ret (Break jar))
  \/ (exists n v, stored_pair (n, v)
        /\ forall jar, parse_pair cookies pos jar
                       = Ret (Break (emplace n v jar)))
  \/ (exists n v pos', stored_pair (n, v) /\ pos < pos' <= size cookies
        /\ forall jar, parse_pair cookies pos jar
                       = Ret (Continue pos' (emplace n v jar))).
Proof.
  intros Hsz Hpos.
  destruct (Z.eqb_spec (find cookies "=" pos) npos) as [He|He].
  { left. intros jar. rewrite parse_pair_unfold by done. cbv zeta.
    by rewrite He. }
  destruct (find_range cookies "=" pos) as [E|E]; [lia|done|].
  pose proof (blanks_end_range cookies (find cookies "=" pos + 1)) as Hs.
  destruct (Z.eqb_spec (blanks_end cookies (find cookies "=" pos + 1))
                       (size cookies)) as [Hst|Hst].
  { left. intros jar. rewrite parse_pair_unfold by done. cbv zeta.
    destruct (Z.eqb_spec (find cookies "=" pos) npos); [done|].
    by rewrite Hst, Z.eqb_refl. }
  set (start := blanks_end cookies (find cookies "=" pos + 1)) in *.
  set (name := trim (take (Z.to_nat (find cookies "=" pos - pos))
                          (drop (Z.to_nat pos) cookies))).
  set (raw := if find cookies ";" start =? npos
              then drop (Z.to_nat start) cookies
              else take (Z.to_nat (find cookies ";" start - start))
                        (drop (Z.to_nat start) cookies)).
  destruct (unquote_total (trim raw)) as [v Hv].
  assert (stored_pair (name, v)) as Hok.
  { split; [|split].
    - apply contains_trim. by apply find_take_contains.
    - apply trim_idem.
    - apply (unquote_contains _ _ _ Hv), contains_trim. unfold raw.
      destruct (Z.eqb_spec (find cookies ";" start) npos) as [Hps|Hps].
      + apply find_npos_contains; [exact Hps|lia|exact Hsz].
      + by apply find_take_contains. }
  assert (forall jar,
            parse_pair cookies pos jar
            = Ret (if find cookies ";" start =? npos
                   then Break (emplace name v jar)
                   else Continue (blanks_end cookies
                                    (find cookies ";" start + 1))
                                 (emplace name v jar))) as Hpp.
  { intros jar. rewrite parse_pair_unfold by done. cbv zeta.
    destruct (Z.eqb_spec (find cookies "=" pos) npos); [done|].
    fold start. destruct (Z.eqb_spec start (size cookies)); [done|].
    fold raw. rewrite Hv. simpl. fold name.
    by destruct (find cookies ";" start =? npos). }
  destruct (Z.eqb_spec (find cookies ";" start) npos) as [Hps|Hps].
  - right; left. exists name, v. split; [done|]. intros jar.
    rewrite Hpp. done.
  - right; right.
    destruct (find_range cookies ";" start) as [F|F]; [lia|done|].
    pose proof (blanks_end_range cookies (find cookies ";" start + 1)).
    exists name, v, (blanks_end cookies (find cookies ";" start + 1)).
    split; [done|]. split; [lia|]. intros jar. by rewrite Hpp.
Qed.

(** The pairs a header makes the loop store, from [pos] on, whatever the
    jar. *)
Lemma cookie_loop_pairs cookies :
  size cookies < npos ->
  forall (m : nat) pos, 0 <= pos -> size cookies - pos <= Z.of_nat m ->
  exists pairs, Forall stored_pair pairs
    /\ forall jar fuel, size cookies - pos <= Z.of_nat fuel ->
         cookie_loop fuel cookies pos jar = Ret (jar ∪ list_to_map pairs).
Proof.
  intros Hsz. induction m as [|m IH]; intros pos Hpos Hm.
  - exists []. split; [done|]. intros jar fuel _.
    rewrite list_to_map_nil, (right_id_L ∅ (∪)).
    destruct fuel; simpl; by destruct (Z.ltb_spec pos (size cookies)); try lia.
  - destruct (Z.ltb_spec pos (size cookies)) as [Hlt|Hge].
    2:{ exists []. split; [done|]. intros jar fuel _.
        rewrite list_to_map_nil, (right_id_L ∅ (∪)).
        destruct fuel; simpl;
          by destruct (Z.ltb_spec pos (size cookies)); try lia. }
    destruct (parse_pair_shape cookies pos Hsz)
      as [H|[(n & v & Hok & H)|(n & v & p & Hok & Hp & H)]]; [lia|..].
    + exists []. split; [done|]. intros jar fuel Hfuel.
      rewrite list_to_map_nil, (right_id_L ∅ (∪)).
      destruct fuel as [|fuel]; [lia|]. simpl.
      destruct (Z.ltb_spec pos (size cookies)); [|lia]. by rewrite H.
    + exists [(n, v)]. split; [by constructor|]. intros jar fuel Hfuel.
      destruct fuel as [|fuel]; [lia|]. simpl.
      destruct (Z.ltb_spec pos (size cookies)); [|lia]. rewrite H. simpl.
      by rewrite <- emplace_union, (right_id_L ∅ (∪)).
    + destruct (IH p) as (pairs & Hpairs & Hloop); [lia|lia|].
      exists ((n, v) :: pairs). split; [by constructor|].
      intros jar fuel Hfuel.
      destruct fuel as [|fuel]; [lia|]. simpl.
      destruct (Z.ltb_spec pos (size cookies)); [|lia]. rewrite H. simpl.
      rewrite Hloop by lia. by rewrite emplace_union.
Qed.

Lemma parse_cookies_pairs cookies :
  size cookies < npos ->
  exists pairs, Forall stored_pair pairs
    /\ forall jar, parse_cookies cookies jar = Ret (jar ∪ list_to_map pairs).
Proof.
  intros Hsz.
  destruct (cookie_loop_pairs cookies Hsz (String.length cookies) 0)
    as (pairs & Hok & Hloop); [lia|unfold size; lia|].
  exists pairs. split; [done|]. intros jar. apply Hloop. unfold size. lia.
Qed.

End AnyHeader.

Section AnyHeaderTheorems.

Implicit Types (cookies : string) (jar : gmap string string).

(** X7: what a header adds does not depend on the jar it is parsed into:
    the result is the jar united with the parse into the empty jar, and the
    entries the jar already had win. *)
Theorem parse_into_jar cookies :
  size cookies < npos ->
  exists read,
    parse_cookies cookies ∅ = Ret read
    /\ forall jar, parse_cookies cookies jar = Ret (jar ∪ read).
Proof.
  intros Hsz. destruct (parse_cookies_pairs cookies Hsz) as (pairs & _ & H).
  exists (list_to_map pairs). split; [|done].
  by rewrite H, (left_id_L ∅ (∪)).
Qed.

(** X8: parsing the same header a second time, into the jar the first parse
    returned, changes nothing. *)
Theorem parse_twice cookies jar :
  size cookies < npos ->
  exists jar',
    parse_cookies cookies jar = Ret jar'
    /\ parse_cookies cookies jar' = Ret jar'.
Proof.
  intros Hsz. destruct (parse_cookies_pairs cookies Hsz) as (pairs & _ & H).
  exists (jar ∪ list_to_map pairs). split; [done|].
  by rewrite H, <- (assoc_L (∪)), (idemp_L (∪)).
Qed.

(** X9: whatever the header, every entry of the resulting jar was in the
    jar before, or has a name without [=] and without white space at
    either end and a value without [;]. *)
Theorem parse_entries cookies jar :
  size cookies < npos ->
  exists jar',
    parse_cookies cookies jar = Ret jar'
    /\ forall name value, jar' !! name = Some value ->
         jar !! name = Some value \/ stored_pair (name, value).
Proof.
  intros Hsz. destruct (parse_cookies_pairs cookies Hsz) as (pairs & Hok & H).
  exists (jar ∪ list_to_map pairs). split; [done|].
  intros name value [Hjar|[_ Hnew]]%lookup_union_Some_raw; [by left|right].
  apply elem_of_list_to_map_2 in Hnew.
  by apply (proj1 (Forall_forall _ _) Hok).
Qed.

End AnyHeaderTheorems.

(** ** More on [Cookie] and on the hooks *)

Section MiddlewareExtras.

Context {ptime : Type}.
Variable put_ptime : ptime -> string.
Variable header_key_eq : string -> string -> bool.

Implicit Types (c : Cookie ptime) (ctx : context ptime) (res : response)
  (req : request) (chain : list (setter_call ptime)).

(** A setter call replaces what an earlier call for the same attribute
    stored. *)
Lemma call_overwrite c (s1 s2 : setter_call ptime) :
  attribute_of s1 = attribute_of s2 -> call (call c s1) s2 = call c s2.
Proof. destruct s1, s2; simpl; intros H; try done. Qed.

Lemma call_chain_app chain chain' c :
  call_chain (chain ++ chain') c = call_chain chain' (call_chain chain c).
Proof. apply fold_left_app. Qed.

Lemma call_chain_shadowed chain chain' (s1 s2 : setter_call ptime) c :
  attribute_of s1 = attribute_of s2 ->
  call_chain (s1 :: chain ++ s2 :: chain') c
  = call_chain (chain ++ s2 :: chain') c.
Proof.
  intros H. revert c. induction chain as [|x chain IH]; intros c.
  - simpl. by rewrite call_overwrite.
  - change (call_chain (s1 :: (x :: chain) ++ s2 :: chain') c)
      with (call_chain (chain ++ s2 :: chain') (call (call c s1) x)).
    change (call_chain ((x :: chain) ++ s2 :: chain') c)
      with (call_chain (chain ++ s2 :: chain') (call c x)).
    destruct (decide (attribute_of s1 = attribute_of x)) as [E|E].
    + by rewrite call_overwrite.
    + rewrite call_swap by done. apply (IH (call c x)).
Qed.

(** X10: in a chain of setter calls, a call that is followed, anywhere
    later, by a call for the same attribute has no effect on the cookie:
    the last call for an attribute wins. *)
Theorem last_call_wins chain1 chain2 chain3 (s1 s2 : setter_call ptime) c :
  attribute_of s1 = attribute_of s2 ->
  call_chain (chain1 ++ s1 :: chain2 ++ s2 :: chain3) c
  = call_chain (chain1 ++ chain2 ++ s2 :: chain3) c.
Proof.
  intros H.
  rewrite (call_chain_app chain1 (s1 :: _)),
    (call_chain_app chain1 (chain2 ++ _)).
  by apply call_chain_shadowed.
Qed.

(** X11: no chain of setter calls changes the key or the value of a cookie,
    or clears [Secure] or [HttpOnly] once they are set; and whenever
    [format()] does not have to use the deleted facet, its output for the
    cookie after the calls starts with its output for the bare [key=value]
    cookie. *)
Theorem setters_keep_identity chain c facet :
  key_ (call_chain chain c) = key_ c
  /\ value_ (call_chain chain c) = value_ c
  /\ (secure_ c = true -> secure_ (call_chain chain c) = true)
  /\ (httponly_ c = true -> httponly_ (call_chain chain c) = true)
  /\ (expires_at_ (call_chain chain c) = None \/ facet = FacetFresh ->
      exists bare attributes facet',
        format put_ptime facet (new_cookie (key_ c) (value_ c))
        = Ret (bare, facet)
        /\ format put_ptime facet (call_chain chain c)
           = Ret (bare +:+ attributes, facet')).
Proof.
  assert (key_ (call_chain chain c) = key_ c
          /\ value_ (call_chain chain c) = value_ c
          /\ (secure_ c = true -> secure_ (call_chain chain c) = true)
          /\ (httponly_ c = true -> httponly_ (call_chain chain c) = true))
    as (Hk & Hv & Hs & Hh).
  { revert c. induction chain as [|s chain IH]; intros c; [done|].
    change (call_chain (s :: chain) c) with (call_chain chain (call c s)).
    destruct (IH (call c s)) as (Hk & Hv & Hs & Hh).
    rewrite Hk, Hv. by destruct s; simpl in *; auto. }
  split; [done|]. split; [done|]. split; [done|]. split; [done|].
  intros Hsafe. rewrite format_new_cookie, format_layout.
  assert (layout put_ptime (call_chain chain c)
          = (key_ c +:+ "="
             +:+ (if empty (value_ c)
                  then String DQUOTE (String DQUOTE EmptyString)
                  else value_ c))
            +:+ String.concat EmptyString
                  (map (fun text => DIVIDER +:+ text)
                       (omap (attribute_text put_ptime (call_chain chain c))
                             attribute_order))) as ->.
  { unfold layout, rendered_value.
    rewrite Hk, Hv, (empty_decide (value_ c)), !str_app_assoc.
    by destruct (decide (value_ c = EmptyString)). }
  eexists _, _.
  destruct (expires_at_ (call_chain chain c)) as [t|], facet;
    try (by eexists); destruct Hsafe; done.
Qed.

(** X12: the overload of [max_age] for a duration stores what the overload
    for seconds would store for the same duration exactly when the duration
    is shorter than one minute. *)
Theorem max_age_duration_agrees dt c :
  max_age_duration dt c = max_age (PosixTime.total_seconds dt) c
  <-> -60 < PosixTime.total_seconds dt < 60.
Proof.
  unfold max_age_duration, max_age, PosixTime.seconds, PosixTime.total_seconds.
  set (t := Z.quot (PosixTime.ticks dt) PosixTime.ticks_per_second).
  split.
  - intros [= H]. revert H. Z.quot_rem_to_equations. lia.
  - intros H. do 2 f_equal. Z.quot_rem_to_equations. lia.
Qed.

Lemma emit_cookies_app (l1 l2 : list (Cookie ptime)) facet res :
  emit_cookies put_ptime (l1 ++ l2) facet res
  = '(res1, facet1) ← emit_cookies put_ptime l1 facet res;
    emit_cookies put_ptime l2 facet1 res1.
Proof.
  revert facet res. induction l1 as [|c l IH]; intros facet res; simpl; [done|].
  by destruct (format put_ptime facet c) as [[text facet1]| | |]; simpl.
Qed.

(** X13: [set_cookie] leaves the jar and the cookies staged before as they
    are and returns a reference to the new cookie; setter calls through that
    reference change that cookie only; and [after_handle] then does what it
    does for the cookies staged before, followed by one call of [format()]
    on the new cookie, with its attributes, whose text goes in one more
    [Set-Cookie] header (so it is undefined when one of these calls is). *)
Theorem set_cookie_then_emit key value chain ctx res facet :
  let ctx' := through (set_cookie key value ctx).2 chain
                (set_cookie key value ctx).1 in
  jar ctx' = jar ctx
  /\ cookies_to_add ctx'
     = cookies_to_add ctx ++ [call_chain chain (new_cookie key value)]
  /\ after_handle put_ptime facet res ctx'
     = ('(res1, _, facet1) ← after_handle put_ptime facet res ctx;
        '(text, facet2) ← format put_ptime facet1
                            (call_chain chain (new_cookie key value));
        mret (add_header "Set-Cookie" text res1, ctx', facet2)).
Proof.
  intros ctx'.
  assert (cookies_to_add ctx'
          = cookies_to_add ctx ++ [call_chain chain (new_cookie key value)])
    as Hstaged.
  { unfold ctx', through, set_cookie. simpl.
    rewrite alter_app_r_alt by done. by rewrite Nat.sub_diag. }
  split; [done|]. split; [done|].
  unfold after_handle. rewrite Hstaged, emit_cookies_app.
  destruct (emit_cookies put_ptime (cookies_to_add ctx) facet res)
    as [[res1 facet1]| | |]; simpl; try done.
  by destruct (format put_ptime facet1 _) as [[text facet2]| | |].
Qed.

(** X14: whatever the request, [before_handle] returns, adds no header to
    the response, leaves the staged cookies as they are, and keeps every
    entry of the jar; it either leaves the response as it is or ends it
    with status 400. *)
Theorem before_handle_keeps req res ctx :
  size (get_header_value header_key_eq req "Cookie") < npos ->
  exists res' ctx',
    before_handle header_key_eq req res ctx = Ret (res', ctx')
    /\ res_headers res' = res_headers res
    /\ cookies_to_add ctx' = cookies_to_add ctx
    /\ jar ctx ⊆ jar ctx'
    /\ (res' = res \/ (code res' = 400 /\ completed_ res' = true
                       /\ ctx' = ctx)).
Proof.
  intros Hsz. unfold before_handle.
  destruct (headers_count header_key_eq req "Cookie" =? 0).
  { exists res, ctx. repeat split; auto. }
  destruct (1 <? headers_count header_key_eq req "Cookie").
  { eexists _, ctx. repeat split; auto. }
  destruct (parse_cookies_pairs _ Hsz) as (pairs & _ & H).
  rewrite H. simpl. eexists _, _. split; [done|]. simpl.
  repeat split; auto. apply map_union_subseteq_l.
Qed.

(** X15: when the request has two or more [Cookie] headers and the response
    is ended with status 400, [after_handle], where none of its calls of
    [format()] uses the deleted facet, still emits one [Set-Cookie] header
    per staged cookie and keeps the status and the end mark. *)
Theorem rejected_request_still_emits req res ctx facet facet' :
  2 <= headers_count header_key_eq req "Cookie" ->
  facet_after (cookies_to_add ctx) facet = Some facet' ->
  exists res1 res2,
    before_handle header_key_eq req res ctx = Ret (res1, ctx)
    /\ after_handle put_ptime facet res1 ctx = Ret (res2, ctx, facet')
    /\ code res2 = 400 /\ completed_ res2 = true
    /\ res_headers res2
       = res_headers res
         ++ map (fun c => ("Set-Cookie", layout put_ptime c))
                (cookies_to_add ctx).
Proof.
  intros H Hfacet. unfold before_handle, after_handle.
  destruct (Z.eqb_spec (headers_count header_key_eq req "Cookie") 0); [lia|].
  destruct (Z.ltb_spec 1 (headers_count header_key_eq req "Cookie")); [|lia].
  eexists _, _. split; [done|].
  rewrite emit_cookies_spec, Hfacet. simpl. done.
Qed.

(** X18: [format()] returns [key=value] (the empty value written as two
    double quotes) followed by [DIVIDER] and the text of each attribute that
    is set, in the order Expires, Max-Age, Domain, Path, Secure, HttpOnly,
    SameSite, and leaves the facet as it was, for every cookie without
    Expires; for a cookie with Expires it returns that text and leaves the
    facet deleted when the facet was never used, and is undefined when the
    facet was deleted before. *)
Theorem format_by_facet c facet :
  format put_ptime facet c
  = match expires_at_ c, facet with
    | None, _ =>
        Ret ((key_ c +:+ "=" +:+
                (if decide (value_ c = EmptyString)
                 then String DQUOTE (String DQUOTE EmptyString) else value_ c))
             +:+ String.concat EmptyString
                   (map (fun text => "; " +:+ text)
                        (omap (attribute_text put_ptime c)
                              [AExpires; AMaxAge; ADomain; APath;
                               ASecure; AHttpOnly; ASameSite])), facet)
    | Some _, FacetFresh =>
        Ret ((key_ c +:+ "=" +:+
                (if decide (value_ c = EmptyString)
                 then String DQUOTE (String DQUOTE EmptyString) else value_ c))
             +:+ String.concat EmptyString
                   (map (fun text => "; " +:+ text)
                        (omap (attribute_text put_ptime c)
                              [AExpires; AMaxAge; ADomain; APath;
                               ASecure; AHttpOnly; ASameSite])), FacetFreed)
    | Some _, FacetFreed => Undefined
    end.
Proof. apply format_layout. Qed.

(** X19: [after_handle] leaves the context as it is and adds, after the
    headers the response already has, one [Set-Cookie] header per staged
    cookie, in staging order, with the text of [format()] as value, as long
    as no call of [format()] uses the deleted facet: that is, when no staged
    cookie has Expires, or when one has and the facet was never used.
    Otherwise it is undefined. *)
Theorem after_handle_emits facet res ctx :
  after_handle put_ptime facet res ctx
  = match facet_after (cookies_to_add ctx) facet with
    | Some facet' =>
        Ret ({| code := code res;
                res_headers :=
                  res_headers res
                  ++ map (fun c => ("Set-Cookie", layout put_ptime c))
                         (cookies_to_add ctx);
                completed_ := completed_ res |}, ctx, facet')
    | None => Undefined
    end
  /\ (Forall (fun c => expires_at_ c = None) (cookies_to_add ctx) ->
      facet_after (cookies_to_add ctx) facet = Some facet)
  /\ (forall c, cookies_to_add ctx = [c] ->
      facet_after (cookies_to_add ctx) FacetFresh
      = Some (if has_expires c then FacetFreed else FacetFresh)).
Proof.
  split; [|split].
  - unfold after_handle. rewrite emit_cookies_spec.
    by destruct (facet_after (cookies_to_add ctx) facet).
  - generalize (cookies_to_add ctx). intros l H.
    induction H as [|c l Hc Hl IH]; [done|]. simpl. unfold has_expires.
    by rewrite Hc.
  - intros c ->. simpl. by destruct (has_expires c).
Qed.

(** X20: two chains of setter calls with at most one call per attribute
    that differ only in the order of the calls leave the same cookie, so
    [format()], called in the same state of the facet, does the same for
    both. *)
Theorem setter_order_irrelevant chain chain' c facet :
  chain ≡ₚ chain' -> NoDup (attribute_of <$> chain) ->
  call_chain chain c = call_chain chain' c
  /\ format put_ptime facet (call_chain chain c)
     = format put_ptime facet (call_chain chain' c).
Proof.
  intros Hperm Hnd.
  assert (call_chain chain c = call_chain chain' c) as E
    by by apply call_chain_permutation.
  split; [done|]. by rewrite E.
Qed.

End MiddlewareExtras.

Section RoundTrips.

Context {ptime : Type}.
Variable put_ptime : ptime -> string.
Variable header_key_eq : string -> string -> bool.

Implicit Types (c : Cookie ptime) (ctx : context ptime) (res : response)
  (req : request) (pairs : list (string * string)).

Lemma list_to_map_first pairs1 name value pairs2 :
  name ∉ pairs1.*1 ->
  (list_to_map (pairs1 ++ (name, value) :: pairs2) : gmap string string)
    !! name = Some value.
Proof.
  induction pairs1 as [|[n v] l IH]; intros Hn; simpl.
  - apply lookup_insert_eq.
  - rewrite fmap_cons in Hn. apply not_elem_of_cons in Hn as [Hne Hn].
    rewrite lookup_insert_ne by done. by apply IH.
Qed.

(** X16: after [before_handle] on a request whose single [Cookie] header
    carries well-formed pairs, [get_cookie] returns, for a name of the
    header, the value of its first pair, and the empty string for any other
    name. *)
Theorem get_cookie_after_before_handle k pairs req res :
  headers_count header_key_eq req "Cookie" = 1 ->
  get_header_value header_key_eq req "Cookie" = cookie_header k pairs ->
  Forall wire_pair pairs ->
  size (cookie_header k pairs) < npos ->
  exists ctx' : context ptime,
    before_handle header_key_eq req res empty_context = Ret (res, ctx')
    /\ (forall pairs1 name value pairs2,
          pairs = pairs1 ++ (name, value) :: pairs2 -> name ∉ pairs1.*1 ->
          get_cookie ctx' name = value)
    /\ (forall name, name ∉ pairs.*1 -> get_cookie ctx' name = EmptyString).
Proof.
  intros Hcount Hvalue Hok Hsz. unfold before_handle.
  rewrite Hcount, Hvalue. simpl.
  rewrite parse_cookies_header by done. simpl.
  eexists. split; [done|]. unfold get_cookie. simpl.
  rewrite (left_id_L ∅ (∪)). split.
  - intros pairs1 name value pairs2 -> Hn. by rewrite list_to_map_first.
  - intros name Hn. by rewrite not_elem_of_list_to_map_1.
Qed.

Lemma divider_concat (texts : list string) :
  String.concat EmptyString (map (fun text => DIVIDER +:+ text) texts)
  = EmptyString
  \/ exists tail,
       String.concat EmptyString (map (fun text => DIVIDER +:+ text) texts)
       = String ";" tail.
Proof.
  destruct texts as [|t l]; [by left|right].
  rewrite map_cons, concat_cons_empty. unfold DIVIDER. by eexists.
Qed.

(** X17: for a cookie with any attributes, whose key has no [=] and no white
    space at either end and whose value is empty or well formed, [format()]
    returns, provided it does not have to use the deleted facet, and parsing
    its output as a request header yields a jar that maps the key to the
    value: the attributes that follow never replace it. *)
Theorem format_then_parse c facet :
  wire_name (key_ c) ->
  value_ c = EmptyString \/ wire_value (value_ c) ->
  expires_at_ c = None \/ facet = FacetFresh ->
  exists text facet',
    format put_ptime facet c = Ret (text, facet')
    /\ (size text < npos ->
        exists jar,
          parse_cookies text ∅ = Ret jar
          /\ jar !! key_ c = Some (value_ c)).
Proof.
  intros [Hkeq Hkt] Hv Hsafe.
  exists (layout put_ptime c),
    (if has_expires c then FacetFreed else facet).
  split.
  { rewrite format_layout. unfold has_expires.
    destruct (expires_at_ c) as [t|], facet; try done; by destruct Hsafe. }
  intros Hsz.
  destruct (parse_cookies_total _ ∅ Hsz) as [jar Hjar].
  exists jar. split; [done|].
  unfold layout in *.
  set (tail := String.concat EmptyString _) in *.
  assert (tail = EmptyString \/ exists tail', tail = String ";" tail') as Htail
    by apply divider_concat.
  assert (exists a w,
            rendered_value c = String a w /\ Ascii.eqb a " " = false
            /\ contains ";" (String a w) = false
            /\ (size (String a w) <= npos ->
                unquote (trim (String a w)) = Ret (value_ c)))
    as (a & w & Hr & Ha & Hsemi & Hun).
  { unfold rendered_value. destruct Hv as [->|Hv].
    - exists DQUOTE, (String DQUOTE EmptyString). by repeat split.
    - pose proof Hv as (Hne & Hs & _ & _).
      destruct (wire_value_head _ Hv) as (a & w & E & Ha).
      destruct (decide (value_ c = EmptyString)); [done|].
      exists a, w. rewrite <- E. repeat split; try done.
      intros ?. by apply wire_value_unquote. }
  rewrite Hr in *.
  set (cookies := (key_ c +:+ "=" +:+ String a w) +:+ tail) in *.
  assert (cookies
          = EmptyString +:+ key_ c +:+ "=" +:+ blanks 0 +:+ String a w
            +:+ tail) as Hc.
  { unfold cookies. str_norm. reflexivity. }
  pose proof (size_nonneg (key_ c)). pose proof (size_nonneg w).
  pose proof (size_nonneg tail).
  assert (size cookies = size (key_ c) + 1 + (1 + size w) + size tail)
    as Hsize.
  { unfold cookies. rewrite !size_app, (size_cons a w).
    change (size "=") with 1. lia. }
  unfold parse_cookies in Hjar.
  destruct (String.length cookies) as [|fuel] eqn:L;
    [unfold size in Hsize; lia|].
  simpl in Hjar. destruct (Z.ltb_spec 0 (size cookies)); [|lia].
  change 0 with (size EmptyString) in Hjar.
  rewrite (parse_pair_at cookies EmptyString (key_ c) 0 a w tail ∅) in Hjar
    by done.
  rewrite Hun in Hjar by (rewrite size_cons; lia).
  rewrite Hkt in Hjar. simpl in Hjar.
  assert (emplace (key_ c) (value_ c) ∅ !! key_ c = Some (value_ c)) as Hfirst.
  { by rewrite emplace_lookup, lookup_empty. }
  destruct (empty tail).
  - by injection Hjar as <-.
  - apply (cookie_loop_invariant (fun j => j !! key_ c = Some (value_ c))
             _ _ _ _ _ (fun n v j H => emplace_keeps n v j _ _ H)
             Hfirst Hjar).
Qed.

End RoundTrips.

(** ** The further theorems at concrete inputs *)

Ltac wire_ok :=
  repeat constructor; simpl; try reflexivity; try discriminate.

Lemma parse_cookie_header_witness :
  parse_cookies (cookie_header 1 [("a", "1"); ("b", "2"); ("a", "3")]) ∅
  = Ret (∅ ∪ list_to_map [("a", "1"); ("b", "2"); ("a", "3")]).
Proof.
  apply (parse_cookie_header 1 [("a", "1"); ("b", "2"); ("a", "3")] ∅
           ltac:(wire_ok) ltac:(vm_compute; reflexivity)).
Defined.

Lemma parse_no_equal_witness :
  parse_cookies "no pair; in here" ∅ = Ret ∅.
Proof. apply (parse_no_equal "no pair; in here" ∅ ltac:(reflexivity)). Defined.

Lemma parse_trailing_fragment_witness :
  parse_cookies (cookie_header 1 [("a", "1")] +:+ ";" +:+ " secure") ∅
  = Ret (∅ ∪ list_to_map [("a", "1")]).
Proof.
  apply (parse_trailing_fragment 1 [("a", "1")] " secure" ∅
           ltac:(wire_ok) ltac:(reflexivity) ltac:(vm_compute; reflexivity)).
Defined.

Lemma parse_incomplete_pair_witness :
  parse_cookies (cookie_header 1 [("a", "1")] +:+ ";" +:+ " b" +:+ "="
                 +:+ blanks 2) ∅
  = Ret (∅ ∪ list_to_map [("a", "1")]).
Proof.
  apply (parse_incomplete_pair 1 [("a", "1")] " b" 2 ∅
           ltac:(wire_ok) ltac:(reflexivity) ltac:(vm_compute; reflexivity)).
Defined.

Lemma parse_quoted_pair_witness :
  parse_cookies ("a" +:+ "=" +:+ blanks 1
                 +:+ String DQUOTE (" x y " +:+ String DQUOTE EmptyString)) ∅
  = Ret (emplace (trim "a") " x y " ∅).
Proof.
  apply (parse_quoted_pair "a" 1 " x y " ∅
           ltac:(reflexivity) ltac:(reflexivity)
           ltac:(vm_compute; reflexivity)).
Defined.

Lemma parse_padded_pair_witness :
  parse_cookies (" " +:+ "a" +:+ " " +:+ "=" +:+ blanks 2 +:+ "1" +:+ "  ") ∅
  = Ret (emplace "a" "1" ∅).
Proof.
  apply (parse_padded_pair " " "a" " " 2 "1" "  " ∅
           ltac:(reflexivity) ltac:(reflexivity) ltac:(reflexivity)
           ltac:(wire_ok) ltac:(wire_ok) ltac:(vm_compute; reflexivity)).
Defined.

Lemma parse_into_jar_witness :
  exists read,
    parse_cookies "a=1; b=2" ∅ = Ret read
    /\ forall jar, parse_cookies "a=1; b=2" jar = Ret (jar ∪ read).
Proof. apply (parse_into_jar "a=1; b=2" ltac:(vm_compute; reflexivity)). Defined.

Lemma parse_twice_witness :
  exists jar',
    parse_cookies "a=1; a=2" {[ "b" := "0" ]} = Ret jar'
    /\ parse_cookies "a=1; a=2" jar' = Ret jar'.
Proof.
  apply (parse_twice "a=1; a=2" {[ "b" := "0" ]}
           ltac:(vm_compute; reflexivity)).
Defined.

Lemma parse_entries_witness :
  exists jar',
    parse_cookies " a = x=y ; b" ∅ = Ret jar'
    /\ forall name value, jar' !! name = Some value ->
         (∅ : gmap string string) !! name = Some value
         \/ stored_pair (name, value).
Proof. apply (parse_entries " a = x=y ; b" ∅ ltac:(vm_compute; reflexivity)). Defined.

Lemma last_call_wins_witness :
  call_chain ([CallSecure] ++ CallMaxAge 1 :: [CallPath "/"]
              ++ CallMaxAgeDuration (PosixTime.of_hms 0 0 5) :: [])
             (new_cookie (ptime := unit) "k" "v")
  = call_chain ([CallSecure] ++ [CallPath "/"]
                ++ CallMaxAgeDuration (PosixTime.of_hms 0 0 5) :: [])
               (new_cookie "k" "v").
Proof.
  apply (last_call_wins [CallSecure] [CallPath "/"] []
           (CallMaxAge 1) (CallMaxAgeDuration (PosixTime.of_hms 0 0 5))
           (new_cookie (ptime := unit) "k" "v") ltac:(reflexivity)).
Defined.

Lemma setters_keep_identity_witness :
  secure_ (call_chain [CallMaxAge 1; CallDomain "d"]
                      (secure (new_cookie (ptime := unit) "k" "v"))) = true
  /\ exists bare attributes facet',
       format sample_date FacetFresh (new_cookie "k" "v") = Ret (bare, FacetFresh)
       /\ format sample_date FacetFresh
            (call_chain [CallExpires tt; CallDomain "d"] (new_cookie "k" "v"))
          = Ret (bare +:+ attributes, facet').
Proof.
  split.
  - apply (proj1 (proj2 (proj2 (setters_keep_identity sample_date
                                  [CallMaxAge 1; CallDomain "d"]
                                  (secure (new_cookie "k" "v")) FacetFresh)))).
    reflexivity.
  - apply (proj2 (proj2 (proj2 (proj2
             (setters_keep_identity sample_date
                [CallExpires tt; CallDomain "d"] (new_cookie "k" "v")
                FacetFresh))))).
    right. reflexivity.
Defined.

Lemma max_age_duration_agrees_witness :
  max_age_duration (PosixTime.of_hms 0 0 30) (new_cookie (ptime := unit) "k" "v")
  = max_age (PosixTime.total_seconds (PosixTime.of_hms 0 0 30))
            (new_cookie "k" "v").
Proof.
  apply (proj2 (max_age_duration_agrees (PosixTime.of_hms 0 0 30)
                  (new_cookie (ptime := unit) "k" "v"))).
  vm_compute. split; reflexivity.
Defined.

Lemma before_handle_keeps_witness :
  exists res' (ctx' : context unit),
    before_handle String.eqb {| headers := [("Cookie", "a=1")] |}
      fresh_response empty_context = Ret (res', ctx')
    /\ res_headers res' = res_headers fresh_response
    /\ cookies_to_add ctx' = cookies_to_add (empty_context (ptime := unit))
    /\ jar (empty_context (ptime := unit)) ⊆ jar ctx'
    /\ (res' = fresh_response
        \/ (code res' = 400 /\ completed_ res' = true /\ ctx' = empty_context)).
Proof.
  apply (before_handle_keeps String.eqb {| headers := [("Cookie", "a=1")] |}
           fresh_response (empty_context (ptime := unit))
           ltac:(vm_compute; reflexivity)).
Defined.

Lemma rejected_request_still_emits_witness :
  exists res1 res2,
    before_handle String.eqb
      {| headers := [("Cookie", "a=1"); ("Cookie", "b=2")] |}
      fresh_response (set_cookie (ptime := unit) "s" "1" empty_context).1
    = Ret (res1, (set_cookie "s" "1" empty_context).1)
    /\ after_handle sample_date FacetFreed res1
         (set_cookie "s" "1" empty_context).1
       = Ret (res2, (set_cookie "s" "1" empty_context).1, FacetFreed)
    /\ code res2 = 400 /\ completed_ res2 = true
    /\ res_headers res2
       = res_headers fresh_response
         ++ map (fun c => ("Set-Cookie", layout sample_date c))
                (cookies_to_add (set_cookie "s" "1" empty_context).1).
Proof.
  apply (rejected_request_still_emits sample_date String.eqb
           {| headers := [("Cookie", "a=1"); ("Cookie", "b=2")] |}
           fresh_response (set_cookie "s" "1" empty_context).1
           FacetFreed FacetFreed
           ltac:(vm_compute; discriminate) ltac:(reflexivity)).
Defined.

Lemma get_cookie_after_before_handle_witness :
  exists ctx' : context unit,
    before_handle String.eqb
      {| headers := [("Host", "h"); ("Cookie", "a=1; b=2; a=3")] |}
      fresh_response empty_context = Ret (fresh_response, ctx')
    /\ (forall pairs1 name value pairs2,
          [("a", "1"); ("b", "2"); ("a", "3")]
          = pairs1 ++ (name, value) :: pairs2 ->
          name ∉ pairs1.*1 -> get_cookie ctx' name = value)
    /\ (forall name, name ∉ [("a", "1"); ("b", "2"); ("a", "3")].*1 ->
          get_cookie ctx' name = EmptyString).
Proof.
  apply (get_cookie_after_before_handle String.eqb 1
           [("a", "1"); ("b", "2"); ("a", "3")]
           {| headers := [("Host", "h"); ("Cookie", "a=1; b=2; a=3")] |}
           fresh_response
           ltac:(reflexivity) ltac:(reflexivity) ltac:(wire_ok)
           ltac:(vm_compute; reflexivity)).
Defined.

Lemma format_then_parse_witness :
  exists text facet',
    format sample_date FacetFresh
      (secure (max_age 60 (expires tt (new_cookie "k" "v"))))
    = Ret (text, facet')
    /\ (size text < npos ->
        exists jar,
          parse_cookies text ∅ = Ret jar /\ jar !! "k" = Some "v").
Proof.
  apply (format_then_parse sample_date
           (secure (max_age 60 (expires tt (new_cookie "k" "v")))) FacetFresh
           ltac:(wire_ok) ltac:(right; wire_ok) ltac:(right; reflexivity)).
Defined.

Lemma after_handle_emits_witness :
  facet_after
    (cookies_to_add
       {| jar := ∅;
          cookies_to_add := [secure (new_cookie (ptime := unit) "a" "1");
                             new_cookie "b" "2"] |}) FacetFreed
  = Some FacetFreed.
Proof.
  apply (proj1 (proj2 (after_handle_emits sample_date FacetFreed fresh_response
                         {| jar := ∅;
                            cookies_to_add := [secure (new_cookie "a" "1");
                                               new_cookie "b" "2"] |}))).
  repeat constructor.
Defined.

Lemma setter_order_irrelevant_witness :
  call_chain [CallSecure; CallMaxAge 60; CallPath "/"]
    (new_cookie (ptime := unit) "k" "v")
  = call_chain [CallPath "/"; CallSecure; CallMaxAge 60] (new_cookie "k" "v")
  /\ format sample_date FacetFresh
       (call_chain [CallSecure; CallMaxAge 60; CallPath "/"]
          (new_cookie "k" "v"))
     = format sample_date FacetFresh
         (call_chain [CallPath "/"; CallSecure; CallMaxAge 60]
            (new_cookie "k" "v")).
Proof.
  apply (setter_order_irrelevant sample_date).
  - symmetry.
    apply (Permutation_cons_append [CallSecure; CallMaxAge 60] (CallPath "/")).
  - apply (bool_decide_unpack _). vm_compute. exact I.
Defined.
